(** * b9 objects: maps (hidden classes), objects and the symbol table

    A shallow embedding of [b9/include/b9/objects.hpp].  Heap cells
    ([Cell] and its subclasses) live in a store addressed by pointers;
    member functions become state-passing functions over that store.
    Fixed-width integers are [N] (unsigned) or [Z] (signed) with the
    wrap-around written out. *)

From stdpp Require Import base numbers option list strings gmap fin_maps pretty.

Local Open Scope N_scope.

(** ** Scalar types *)

(** [using Id = std::uint32_t;] *)
Definition Id := N.
Definition Id_modulus : N := 2 ^ 32.

(** [using Index = std::uint8_t;] *)
Definition Index := N.
Definition Index_modulus : N := 2 ^ 8.

(** [using Value = std::int32_t;] *)
Definition Value := Z.

(** [static constexpr std::size_t MAX_SLOTS = 32;] *)
Definition MAX_SLOTS : N := 32.

(** Pointers into the managed heap. *)
Definition ptr := positive.

(** [enum class MapKind { OBJECT_MAP, MAP_MAP, EMPTY_OBJECT_MAP };] *)
Inductive MapKind := OBJECT_MAP | MAP_MAP | EMPTY_OBJECT_MAP.

Global Instance MapKind_eq_dec : EqDecision MapKind.
Proof. solve_decision. Defined.

(** ** Heap cells

    Every cell starts with the [map_] pointer of [class Cell].  The
    constructors of [MapMap], [EmptyObjectMap] and [ObjectMap] each fix the
    [kind_] tag of their [Map] base, so the tag is read off the variant.
    [Object] cells carry the slot array [Value slots_[MAX_SLOTS]]. *)
Inductive Cell :=
| MapMap (map_ : ptr)
| EmptyObjectMap (map_ : ptr)
| ObjectMap (map_ : ptr) (parent_ : ptr) (id_ : Id) (index_ : Index)
| Object (map_ : ptr) (slots_ : list Value).

Global Instance Cell_eq_dec : EqDecision Cell.
Proof. solve_decision. Defined.

(** [Cell::map() const] *)
Definition Cell_map (c : Cell) : ptr :=
  match c with
  | MapMap m | EmptyObjectMap m | ObjectMap m _ _ _ | Object m _ => m
  end.

(** [Map::kind() const]; an [Object] is not a [Map] and has no kind. *)
Definition Map_kind (c : Cell) : option MapKind :=
  match c with
  | MapMap _ => Some MAP_MAP
  | EmptyObjectMap _ => Some EMPTY_OBJECT_MAP
  | ObjectMap _ _ _ _ => Some OBJECT_MAP
  | Object _ _ => None
  end.

(** [Cell& Cell::map(Map* m)]: re-point a cell at another map. *)
Definition Cell_set_map (m : ptr) (c : Cell) : Cell :=
  match c with
  | MapMap _ => MapMap m
  | EmptyObjectMap _ => EmptyObjectMap m
  | ObjectMap _ parent id index => ObjectMap m parent id index
  | Object _ slots => Object m slots
  end.

Definition is_map (c : Cell) : bool :=
  match c with Object _ _ => false | _ => true end.

Abbreviation heap := (gmap ptr Cell).

(** ** Outcomes of a member function

    A call either returns, throws a [std::runtime_error] (both with the
    heap as it is at that point), has no defined behaviour in C++ (a
    dangling or mistyped pointer, a slot access past the array), or is
    still walking when the fuel of the model ends. *)
Inductive exn := runtime_error (what : string).

Inductive outcome (A : Type) :=
| Ret (a : A) (h : heap)
| Throw (e : exn) (h : heap)
| Undefined
| Timeout.
Arguments Ret {A} a h.
Arguments Throw {A} e h.
Arguments Undefined {A}.
Arguments Timeout {A}.

Definition M (A : Type) := heap → outcome A.

Definition ret {A} (a : A) : M A := λ h, Ret a h.

Definition bind {A B} (k : A → M B) (m : M A) : M B :=
  λ h, match m h with
       | Ret a h' => k a h'
       | Throw e h' => Throw e h'
       | Undefined => Undefined
       | Timeout => Timeout
       end.

Global Instance M_ret : MRet M := @ret.
Global Instance M_bind : MBind M := @bind.

Definition throw {A} (e : exn) : M A := λ h, Throw e h.
Definition undefined {A} : M A := λ _, Undefined.

(** Dereference a pointer. *)
Definition load (p : ptr) : M Cell :=
  λ h, match h !! p with Some c => Ret c h | None => Undefined end.

(** Overwrite the cell a pointer refers to. *)
Definition store (p : ptr) (c : Cell) : M () :=
  λ h, Ret () (<[p := c]> h).

(** [operator new(std::size_t, b9::Context&)] followed by the constructor
    that fills the storage: the cell lands at an address not in use. *)
Definition new (c : Cell) : M ptr :=
  λ h, let p := fresh (dom h) in Ret p (<[p := c]> h).

(** Dereference a pointer as an [Object]. *)
Definition load_Object (this : ptr) : M (ptr * list Value) :=
  c ← load this;
  match c with
  | Object m slots => ret (m, slots)
  | _ => undefined
  end.

(** ** Constructors *)

(** [MapMap() : Map(this, MapKind::MAP_MAP)]: the cell is its own map. *)
Definition new_MapMap : M ptr :=
  λ h, let p := fresh (dom h) in Ret p (<[p := MapMap p]> h).

(** [EmptyObjectMap(MapMap* map)] *)
Definition new_EmptyObjectMap (map : ptr) : M ptr :=
  new (EmptyObjectMap map).

(** [ObjectMap(EmptyObjectMap* parent, Id id)]: [index_(0)]. *)
Definition new_ObjectMap_empty (parent : ptr) (id : Id) : M ptr :=
  p ← load parent;
  match p with
  | EmptyObjectMap mm => new (ObjectMap mm parent id 0)
  | _ => undefined
  end.

(** [ObjectMap(ObjectMap* parent, Id id)]: [index_(parent->index() + 1)],
    narrowed to [std::uint8_t]. *)
Definition new_ObjectMap_object (parent : ptr) (id : Id) : M ptr :=
  p ← load parent;
  match p with
  | ObjectMap mm _ _ ix => new (ObjectMap mm parent id ((ix + 1) mod Index_modulus))
  | _ => undefined
  end.

(** [Object(EmptyObjectMap* map)] and [Object(ObjectMap* map)]:
    [memset(slots_, 0, MAX_SLOTS * sizeof(Value))]. *)
Definition new_Object (map : ptr) : M ptr :=
  new (Object map (replicate (N.to_nat MAX_SLOTS) 0%Z)).

(** [Object(Object& other) : Cell(other.map())] with
    [memcpy(slots_, other.slots_, MAX_SLOTS * sizeof(Value))]. *)
Definition new_Object_copy (other : ptr) : M ptr :=
  '(m, slots) ← load_Object other;
  new (Object m slots).

(** ** Member functions of [Object] *)

(** The loop of [Object::index(Id id)], one unit of fuel per test of the
    loop condition. *)
Fixpoint index_loop (fuel : nat) (m : ptr) (id : Id) : M (Index * bool) :=
  match fuel with
  | O => λ _, Timeout
  | S fuel =>
      c ← load m;
      match c with
      | EmptyObjectMap _ => ret (0, false)
      | ObjectMap _ parent om_id om_index =>
          if decide (om_id = id) then ret (om_index, true)
          else index_loop fuel parent id
      | MapMap _ | Object _ _ => undefined
      end
  end.

(** A walk that has not closed after visiting more cells than the heap
    holds is in a cycle. *)
Definition walk_fuel (h : heap) : nat := S (size h).

(** [std::pair<Index, bool> Object::index(Id id)] *)
Definition Object_index (this : ptr) (id : Id) : M (Index * bool) :=
  λ h, ('(m, _) ← load_Object this; index_loop (walk_fuel h) m id) h.

(** [slots_[i]] as an rvalue. *)
Definition read_slot (this : ptr) (i : N) : M Value :=
  '(_, slots) ← load_Object this;
  if decide (i < MAX_SLOTS) then
    match slots !! N.to_nat i with
    | Some v => ret v
    | None => undefined
    end
  else undefined.

(** [slots_[i] = value] *)
Definition write_slot (this : ptr) (i : N) (value : Value) : M () :=
  '(m, slots) ← load_Object this;
  if decide (i < MAX_SLOTS) then store this (Object m (<[N.to_nat i := value]> slots))
  else undefined.

(** [std::pair<Value, bool> Object::get(Context& cx, Id id)] *)
Definition Object_get (this : ptr) (id : Id) : M (Value * bool) :=
  '(first, second) ← Object_index this id;
  if (second : bool) then
    value ← read_slot this first;
    ret (value, true)
  else ret (0%Z, false).

Definition InvalidShapeKind : exn :=
  runtime_error "An object has a map that is neither an ObjectMap nor EmptyObjectMap".

(** [std::size_t Object::newSlot(Context& cx, Id id)] *)
Definition Object_newSlot (this : ptr) (id : Id) : M N :=
  '(map, _) ← load_Object this;
  mc ← load map;
  match Map_kind mc with
  | None => undefined
  | Some kind =>
      m ← match kind with
          | EMPTY_OBJECT_MAP => new_ObjectMap_empty map id
          | OBJECT_MAP => new_ObjectMap_object map id
          | MAP_MAP => throw InvalidShapeKind
          end;
      (* map(m); *)
      self ← load this;
      _ ← store this (Cell_set_map m self);
      (* return m->index(); *)
      c ← load m;
      match c with
      | ObjectMap _ _ _ ix => ret ix
      | _ => undefined
      end
  end.

(** [Index Object::set(Context& cx, Id id, Value value)] *)
Definition Object_set (this : ptr) (id : Id) (value : Value) : M Index :=
  '(first, second) ← Object_index this id;
  if (second : bool) then
    let index := first in
    _ ← write_slot this index value;
    ret index
  else
    index ← Object_newSlot this id;
    _ ← write_slot this index value;
    ret (index mod Index_modulus).

(** ** Identifier generation and the symbol table *)

(** [class IdGenerator] with its field [nextId_];
    [class SymbolTable] with [idGenerator_] and [lookupTable_]. *)
Record SymbolTable := mkSymbolTable {
  nextId_ : Id;
  lookupTable_ : gmap string Id;
}.

(** [SymbolTable] as default-constructed: [nextId_ = 0], empty table. *)
Definition SymbolTable_init : SymbolTable := mkSymbolTable 0 ∅.

(** [Id IdGenerator::newId() { return nextId_++; }] on the generator
    inside the table. *)
Definition IdGenerator_newId (st : SymbolTable) : Id * SymbolTable :=
  (nextId_ st,
   mkSymbolTable ((nextId_ st + 1) mod Id_modulus) (lookupTable_ st)).

(** [std::map::insert]: an existing key keeps its value. *)
Definition map_insert (k : string) (v : Id) (t : gmap string Id) : gmap string Id :=
  match t !! k with
  | Some _ => t
  | None => <[k := v]> t
  end.

(** [Id SymbolTable::lookup(std::string& string)] *)
Definition SymbolTable_lookup (s : string) (st : SymbolTable) : Id * SymbolTable :=
  match lookupTable_ st !! s with
  | Some id => (id, st)
  | None =>
      let '(id, st') := IdGenerator_newId st in
      (id, mkSymbolTable (nextId_ st') (map_insert s id (lookupTable_ st')))
  end.

(** ** Symbol tables in use *)

(** The tables a program can hold: the default-constructed one and what
    [lookup] makes of it. *)
Inductive interned : SymbolTable → Prop :=
| interned_init : interned SymbolTable_init
| interned_lookup st s :
    interned st → interned (SymbolTable_lookup s st).2.

(** The decimal numeral of [k], one name per number. *)
Definition name (k : N) : string := pretty k.

(** The table after [lookup] of [name 0], ..., [name (n - 1)] in turn,
    paired with [n]. *)
Definition intern_step (p : N * SymbolTable) : N * SymbolTable :=
  (N.succ p.1, (SymbolTable_lookup (name p.1) p.2).2).

Definition intern_first (n : N) : N * SymbolTable :=
  N.iter n intern_step (0, SymbolTable_init).

(** While no more than 2^32 names are recorded, the counter equals their
    number (2^32 itself wraps to 0), every recorded identifier lies below
    it, and no identifier is recorded twice. *)
Definition table_ok (st : SymbolTable) : Prop :=
  N.of_nat (size (lookupTable_ st)) ≤ Id_modulus →
  nextId_ st = N.of_nat (size (lookupTable_ st)) mod Id_modulus ∧
  (∀ s i, lookupTable_ st !! s = Some i →
          i < N.of_nat (size (lookupTable_ st))) ∧
  (∀ s s' i, lookupTable_ st !! s = Some i →
             lookupTable_ st !! s' = Some i → s = s').

(** ** Shape chains *)

(** [chain h m l]: following [parent_] from [m] reaches an
    [EmptyObjectMap]; [l] lists the [(id_, index_)] of the [ObjectMap]s on
    the way, [m]'s own first. *)
Inductive chain (h : heap) : ptr → list (Id * Index) → Prop :=
| chain_empty m mm :
    h !! m = Some (EmptyObjectMap mm) → chain h m []
| chain_object m mm parent id ix l :
    h !! m = Some (ObjectMap mm parent id ix) →
    chain h parent l →
    chain h m ((id, ix) :: l).

(** What the loop of [Object::index] finds on a chain: the entry nearest
    to the tip. *)
Fixpoint resolve (l : list (Id * Index)) (id : Id) : option Index :=
  match l with
  | [] => None
  | (i, ix) :: l => if decide (i = id) then Some ix else resolve l id
  end.

Definition resolve_pair (l : list (Id * Index)) (id : Id) : Index * bool :=
  match resolve l id with
  | Some ix => (ix, true)
  | None => (0, false)
  end.

(** Slot indices along a chain, tip first, as the two [ObjectMap]
    constructors assign them: position from the root, in 8 bits. *)
Fixpoint contiguous (l : list (Id * Index)) : Prop :=
  match l with
  | [] => True
  | (_, ix) :: l => ix = N.of_nat (length l) mod Index_modulus ∧ contiguous l
  end.

(** The rule of the two [ObjectMap] constructors, read along a chain (tip
    first): index 0 on the empty-object map, otherwise the parent's index
    plus one, in 8 bits. *)
Fixpoint index_rule (l : list (Id * Index)) : Prop :=
  match l with
  | [] => True
  | (_, ix) :: l' =>
      match l' with
      | [] => ix = 0
      | (_, pix) :: _ => ix = (pix + 1) mod Index_modulus
      end ∧ index_rule l'
  end.

(** The same rule as the spec words it, without the wrap. *)
Fixpoint index_rule_exact (l : list (Id * Index)) : Prop :=
  match l with
  | [] => True
  | (_, ix) :: l' =>
      match l' with
      | [] => ix = 0
      | (_, pix) :: _ => ix = pix + 1
      end ∧ index_rule_exact l'
  end.

(** The index the constructors give the next [ObjectMap] on a chain. *)
Definition next_index (l : list (Id * Index)) : Index :=
  N.of_nat (length l) mod Index_modulus.

(** What [get] reads for [id] from slots [slots] under chain [l]. *)
Definition contents (slots : list Value) (l : list (Id * Index)) (id : Id)
    : option Value :=
  ix ← resolve l id; slots !! N.to_nat ix.

(** The slot indices of a chain read from the root to the tip. *)
Definition indices_from_root (l : list (Id * Index)) : list Index :=
  reverse (l.*2).

(** An object in the state the constructors and [set]/[newSlot] leave it
    in: a full slot array and a chain of distinct identifiers with the
    indices the constructors gave them. *)
Record object_at (h : heap) (this : ptr) (m : ptr) (slots : list Value)
    (l : list (Id * Index)) : Prop := {
  oa_cell : h !! this = Some (Object m slots);
  oa_chain : chain h m l;
  oa_contiguous : contiguous l;
  oa_distinct : NoDup (l.*1);
  oa_slots : length slots = N.to_nat MAX_SLOTS;
}.

(** No cell that is a map changes between [h] and [h']. *)
Definition maps_preserved (h h' : heap) : Prop :=
  ∀ p c, h !! p = Some c → is_map c = true → h' !! p = Some c.

(** ** Sequences of calls *)

(** [set] for each [(id, value)] in turn. *)
Fixpoint Object_set_all (this : ptr) (ws : list (Id * Value)) : M () :=
  match ws with
  | [] => ret ()
  | (id, v) :: ws => _ ← Object_set this id v; Object_set_all this ws
  end.

(** [newSlot] for each identifier in turn. *)
Fixpoint Object_newSlot_all (this : ptr) (ids : list Id) : M () :=
  match ids with
  | [] => ret ()
  | id :: ids => _ ← Object_newSlot this id; Object_newSlot_all this ids
  end.

(** The value the last [set] for [id] in [ws] wrote, if there is one. *)
Fixpoint last_write (id : Id) (ws : list (Id * Value)) : option Value :=
  match ws with
  | [] => None
  | (i, v) :: ws =>
      match last_write id ws with
      | Some v' => Some v'
      | None => if decide (i = id) then Some v else None
      end
  end.

(** A call of one of the three member functions that take part in the
    slot protocol. *)
Inductive call :=
| call_get (this : ptr) (id : Id)
| call_set (this : ptr) (id : Id) (value : Value)
| call_newSlot (this : ptr) (id : Id).

(** The heap a call leaves behind, when it returns or throws. *)
Definition heap_after {A} (o : outcome A) : option heap :=
  match o with
  | Ret _ h | Throw _ h => Some h
  | Undefined | Timeout => None
  end.

Definition run_call (c : call) (h : heap) : option heap :=
  match c with
  | call_get this id => heap_after (Object_get this id h)
  | call_set this id v => heap_after (Object_set this id v h)
  | call_newSlot this id => heap_after (Object_newSlot this id h)
  end.

(** A sequence of calls, each one on the heap the one before left. *)
Fixpoint run_calls (cs : list call) (h : heap) : option heap :=
  match cs with
  | [] => Some h
  | c :: cs => h1 ← run_call c h; run_calls cs h1
  end.

(** Reading a chain off the heap, for concrete heaps. *)
Fixpoint chain_list (fuel : nat) (h : heap) (m : ptr)
    : option (list (Id * Index)) :=
  match fuel with
  | O => None
  | S fuel =>
      match h !! m with
      | Some (EmptyObjectMap _) => Some []
      | Some (ObjectMap _ parent id ix) =>
          l ← chain_list fuel h parent; Some ((id, ix) :: l)
      | _ => None
      end
  end.

Global Instance contiguous_dec l : Decision (contiguous l).
Proof.
  induction l as [|[i ix] l IH]; simpl; [left; exact I|].
  apply and_dec; [apply N.eq_dec|exact IH].
Defined.

(** [check_object h this] reads the object at [this] off a concrete heap
    and checks that it is well formed. *)
Definition check_object (h : heap) (this : ptr)
    : option (ptr * list Value * list (Id * Index)) :=
  match h !! this with
  | Some (Object m slots) =>
      l ← chain_list (walk_fuel h) h m;
      if bool_decide (contiguous l ∧ NoDup (l.*1) ∧
                      length slots = N.to_nat MAX_SLOTS)
      then Some (m, slots, l) else None
  | _ => None
  end.

(** Whether a call ended in an exception. *)
Definition thrown {A} (o : outcome A) : option exn :=
  match o with Throw e _ => Some e | _ => None end.

(** ** Concrete heaps *)

(** The two maps every context starts with: the map of maps at address 1
    and the empty-object map at address 2. *)
Definition heap_init : heap :=
  <[2%positive := EmptyObjectMap 1%positive]>
    (<[1%positive := MapMap 1%positive]> ∅).

Definition heap_of {A} (o : outcome A) : heap := default ∅ (heap_after o).

(** [n] writes to the identifiers [0 .. n-1]. *)
Definition writes (n : nat) : list (Id * Value) :=
  (λ k, (N.of_nat k, Z.of_nat (10 * k))) <$> seq 0 n.

(** A fresh object (it lands at address 3) ... *)
Definition heap_object : heap := heap_of (new_Object 2%positive heap_init).
Definition the_object : ptr := 3%positive.

(** ... after 31 and after 32 distinct properties were set. *)
Definition heap_31 : heap :=
  heap_of (Object_set_all the_object (writes 31) heap_object).
Definition heap_full : heap :=
  heap_of (Object_set_all the_object (writes 32) heap_object).

(** The writes of the scenario in the spec: ["x"] is 0, ["y"] is 1. *)
Definition scenario_writes : list (Id * Value) := [(0, 10%Z); (1, 20%Z)].

(** The identifiers [0 .. n-1]. *)
Definition idents (n : nat) : list Id := N.of_nat <$> seq 0 n.

(** The fresh object after 257 calls of [newSlot]. *)
Definition heap_257 : heap :=
  heap_of (Object_newSlot_all the_object (idents 257) heap_object).

(** The object of the scenario, after its two writes. *)
Definition heap_scenario : heap :=
  heap_of (Object_set_all the_object scenario_writes heap_object).

(** The fresh object after 33 calls of [newSlot]. *)
Definition heap_33 : heap :=
  heap_of (Object_newSlot_all the_object (idents 33) heap_object).

(** An object that the setter [Cell::map] pointed at the map of maps. *)
Definition heap_mismatched : heap :=
  <[the_object := Object 1%positive (replicate (N.to_nat MAX_SLOTS) 0%Z)]>
    heap_init.

(** Three calls on the fresh object. *)
Definition three_calls : list call :=
  [call_set the_object 0 10%Z; call_newSlot the_object 1;
   call_get the_object 0].

(** ** The rest of the interface *)

(** [Map& ObjectMap::id(Id id)]: the setter of [id_]. *)
Definition ObjectMap_set_id (this : ptr) (id : Id) : M () :=
  c ← load this;
  match c with
  | ObjectMap mm parent _ index => store this (ObjectMap mm parent id index)
  | _ => undefined
  end.

(** [Map& ObjectMap::index(Index index)]: the setter of [index_]. *)
Definition ObjectMap_set_index (this : ptr) (index : Index) : M () :=
  c ← load this;
  match c with
  | ObjectMap mm parent id _ => store this (ObjectMap mm parent id index)
  | _ => undefined
  end.

(** The object a call is made on. *)
Definition call_this (c : call) : ptr :=
  match c with
  | call_get this _ | call_set this _ _ | call_newSlot this _ => this
  end.

(** [chain_meta h m mm]: [m] heads a chain down to an [EmptyObjectMap],
    and every map on it, the [EmptyObjectMap] included, has [mm] as its
    own [map_]. *)
Inductive chain_meta (h : heap) : ptr → ptr → Prop :=
| chain_meta_empty m mm :
    h !! m = Some (EmptyObjectMap mm) → chain_meta h m mm
| chain_meta_object m mm parent id ix :
    h !! m = Some (ObjectMap mm parent id ix) →
    chain_meta h parent mm →
    chain_meta h m mm.

(** [lookup] for each name in turn; the identifiers returned, and the
    table left. *)
Fixpoint SymbolTable_lookup_all (names : list string) (st : SymbolTable)
    : list Id * SymbolTable :=
  match names with
  | [] => ([], st)
  | s :: names =>
      let '(id, st1) := SymbolTable_lookup s st in
      let '(ids, st2) := SymbolTable_lookup_all names st1 in
      (id :: ids, st2)
  end.

(** The fresh object after 256 calls of [newSlot]. *)
Definition heap_256 : heap :=
  heap_of (Object_newSlot_all the_object (idents 256) heap_object).

(** The object of the scenario and a copy of it (at address 6). *)
Definition heap_copy : heap :=
  heap_of (new_Object_copy the_object heap_scenario).
Definition the_copy : ptr := 6%positive.

(** The object of [heap_full] and a copy of it. *)
Definition heap_full_copy : heap :=
  heap_of (new_Object_copy the_object heap_full).

(** ** Generic facts about the monad and the heap *)

Ltac munfold :=
  unfold mbind, M_bind, bind, mret, M_ret, ret, throw, undefined, load,
    store, new in *.

Lemma MAX_SLOTS_nat : N.to_nat MAX_SLOTS = 32%nat.
Proof. reflexivity. Qed.

Lemma Index_modulus_nat : N.to_nat Index_modulus = 256%nat.
Proof. reflexivity. Qed.

Ltac bounds_lia :=
  rewrite ?MAX_SLOTS_nat, ?Index_modulus_nat in *;
  unfold MAX_SLOTS in *; simpl length in *; lia.

Lemma load_Object_eq h this m slots :
  h !! this = Some (Object m slots) →
  load_Object this h = Ret (m, slots) h.
Proof. intros H. unfold load_Object. munfold. by rewrite H. Qed.

Lemma load_Object_inv h this r h' :
  load_Object this h = Ret r h' →
  h' = h ∧ h !! this = Some (Object r.1 r.2).
Proof.
  unfold load_Object. munfold.
  destruct (h !! this) as [[]|] eqn:E; try discriminate.
  intros [= <- <-]. done.
Qed.

Lemma maps_preserved_refl h : maps_preserved h h.
Proof. by intros p c. Qed.

Lemma maps_preserved_trans h1 h2 h3 :
  maps_preserved h1 h2 → maps_preserved h2 h3 → maps_preserved h1 h3.
Proof. intros H12 H23 p c Hp Hc. apply H23, Hc. by apply H12. Qed.

Lemma maps_preserved_alloc h c :
  maps_preserved h (<[fresh (dom h) := c]> h).
Proof.
  intros p c' Hp _. rewrite lookup_insert_ne; [done|].
  intros <-. apply (is_fresh (dom h)), elem_of_dom. by eexists.
Qed.

Lemma maps_preserved_object h this m slots c :
  h !! this = Some (Object m slots) →
  maps_preserved h (<[this := c]> h).
Proof.
  intros Ho p c' Hp Hc. rewrite lookup_insert_ne; [done|].
  intros <-. rewrite Ho in Hp. by injection Hp as <-.
Qed.

Lemma chain_preserved h h' m l :
  maps_preserved h h' → chain h m l → chain h' m l.
Proof.
  intros Hp. induction 1 as [m mm H|m mm p id ix l H _ IH].
  - eapply chain_empty. by apply Hp.
  - eapply chain_object; [|exact IH]. by apply Hp.
Qed.

Lemma chain_functional h m l1 l2 :
  chain h m l1 → chain h m l2 → l1 = l2.
Proof.
  intros H1. revert l2.
  induction H1 as [m mm H|m mm p id ix l H _ IH]; intros l2 H2;
    inversion H2; simplify_eq; [done|]. f_equal. by apply IH.
Qed.

(** The cells of a chain are pairwise distinct, so a chain is shorter
    than the heap is large. *)
Lemma chain_cells h m l :
  chain h m l →
  ∃ ps : list ptr, length ps = S (length l) ∧
    ∀ i p, ps !! i = Some p →
      p ∈ dom h ∧ ∃ l', chain h p l' ∧ (length l' + i = length l)%nat.
Proof.
  induction 1 as [m mm H|m mm p id ix l H Hc (ps & Hlen & Hps)].
  - exists [m]. split; [done|]. intros [|i] q [=]; subst. split.
    + apply elem_of_dom. by eexists.
    + exists []. split; [by eapply chain_empty|done].
  - exists (m :: ps). split; [simpl; lia|]. intros [|i] q Hq; simpl in *.
    + injection Hq as <-. split; [apply elem_of_dom; by eexists|].
      eexists. split; [by eapply chain_object|simpl; lia].
    + destruct (Hps _ _ Hq) as (? & l' & ? & ?). split; [done|].
      exists l'. split; [done|lia].
Qed.

Lemma chain_length h m l : chain h m l → (length l < size h)%nat.
Proof.
  intros (ps & Hlen & Hps)%chain_cells.
  assert (NoDup ps) as Hnd.
  { apply NoDup_alt. intros i j p Hi Hj.
    destruct (Hps _ _ Hi) as (_ & li & Hci & ?).
    destruct (Hps _ _ Hj) as (_ & lj & Hcj & ?).
    rewrite (chain_functional _ _ _ _ Hci Hcj) in *. lia. }
  assert (ps ⊆+ elements (dom h)) as Hsub.
  { apply NoDup_submseteq; [done|]. intros p [i Hi]%list_elem_of_lookup.
    apply elem_of_elements. by destruct (Hps _ _ Hi). }
  apply submseteq_length in Hsub.
  rewrite <- size_dom. unfold size, set_size at 1. simpl. lia.
Qed.

(** ** The walk of [Object::index] *)

Lemma index_loop_heap fuel m id h r h' :
  index_loop fuel m id h = Ret r h' → h' = h.
Proof.
  revert m. induction fuel as [|fuel IH]; intros m; simpl; [done|]. munfold.
  destruct (h !! m) as [[]|]; try done.
  - by intros [= _ <-].
  - case_decide; [by intros [= _ <-]|]. apply IH.
Qed.

Lemma index_loop_no_throw fuel m id h e h' :
  index_loop fuel m id h ≠ Throw e h'.
Proof.
  revert m. induction fuel as [|fuel IH]; intros m; simpl; [done|]. munfold.
  destruct (h !! m) as [[]|]; try done. case_decide; [done|]. apply IH.
Qed.

Lemma index_loop_chain h m l id fuel :
  chain h m l → (length l < fuel)%nat →
  index_loop fuel m id h = Ret (resolve_pair l id) h.
Proof.
  intros Hc. revert fuel.
  induction Hc as [m mm H|m mm p i ix l H _ IH]; intros [|fuel] Hf;
    simpl in *; try lia; munfold; rewrite H; [done|].
  unfold resolve_pair. simpl. case_decide; [done|]. apply IH. lia.
Qed.

Lemma Object_index_chain h this m slots l id :
  h !! this = Some (Object m slots) → chain h m l →
  Object_index this id h = Ret (resolve_pair l id) h.
Proof.
  intros Ho Hc. unfold Object_index. unfold mbind, M_bind, bind.
  rewrite (load_Object_eq _ _ _ _ Ho).
  apply index_loop_chain; [done|]. apply chain_length in Hc.
  unfold walk_fuel. lia.
Qed.

Lemma Object_index_heap this id h r h' :
  Object_index this id h = Ret r h' → h' = h.
Proof.
  unfold Object_index. unfold mbind, M_bind, bind.
  destruct (load_Object this h) as [[m s] h1| | |] eqn:E; try done.
  apply load_Object_inv in E as [-> _]. apply index_loop_heap.
Qed.

Lemma Object_index_no_throw this id h e h' :
  Object_index this id h ≠ Throw e h'.
Proof.
  unfold Object_index. unfold mbind, M_bind, bind.
  destruct (load_Object this h) as [[m s] h1| | |] eqn:E; try done.
  - apply index_loop_no_throw.
  - unfold load_Object in E. munfold. by destruct (h !! this) as [[]|].
Qed.

(** ** Chains and slot indices *)

Lemma resolve_None l id : resolve l id = None ↔ id ∉ l.*1.
Proof.
  induction l as [|[i ix] l IH]; simpl.
  - split; [intros _; apply not_elem_of_nil|done].
  - rewrite not_elem_of_cons. case_decide as Hi.
    + split; [done|]. by intros [? _].
    + rewrite IH. split; [by intros ?|by intros [_ ?]].
Qed.

Lemma resolve_Some_elem l id ix : resolve l id = Some ix → id ∈ l.*1.
Proof.
  intros H. destruct (decide (id ∈ l.*1)) as [|Hn]; [done|].
  apply resolve_None in Hn. congruence.
Qed.

Lemma next_index_wrap (ix : N) (n : nat) :
  ix = N.of_nat n mod Index_modulus →
  (ix + 1) mod Index_modulus = N.of_nat (S n) mod Index_modulus.
Proof.
  intros ->. by rewrite Nat2N.inj_succ, <- N.add_1_r, N.Div0.add_mod_idemp_l.
Qed.

Lemma index_small (n : nat) :
  (n < N.to_nat Index_modulus)%nat →
  N.of_nat n mod Index_modulus = N.of_nat n.
Proof. intros H. apply N.mod_small. lia. Qed.

Lemma resolve_position l id ix :
  contiguous l → resolve l id = Some ix →
  ∃ k, (k < length l)%nat ∧ ix = N.of_nat k mod Index_modulus.
Proof.
  induction l as [|[i x] l IH]; simpl; [done|]. intros [-> Hc].
  case_decide.
  - intros [= <-]. exists (length l). split; [lia|done].
  - intros (k & ? & ?)%IH; [|done]. exists k. split; [lia|done].
Qed.

Lemma resolve_lt l id ix :
  contiguous l → (length l ≤ N.to_nat Index_modulus)%nat →
  resolve l id = Some ix → ix < N.of_nat (length l).
Proof.
  intros Hc Hl (k & Hk & ->)%resolve_position; [|done].
  rewrite index_small by lia. lia.
Qed.

Lemma resolve_inj l a b ix :
  contiguous l → (length l ≤ N.to_nat Index_modulus)%nat →
  resolve l a = Some ix → resolve l b = Some ix → a = b.
Proof.
  induction l as [|[i x] l IH]; simpl; [done|]. intros [-> Hc] Hl.
  rewrite index_small by lia.
  repeat case_decide; simplify_eq; try done.
  - intros [= <-] Hb%resolve_lt; [lia|done|lia].
  - intros Ha%resolve_lt [= <-]; [lia|done|lia].
  - apply IH; [done|lia].
Qed.

(** ** What [newSlot] does on a chain *)

Lemma Object_newSlot_chain h this m slots l id :
  h !! this = Some (Object m slots) → chain h m l → contiguous l →
  ∃ mm, Object_newSlot this id h =
    Ret (next_index l)
      (<[this := Object (fresh (dom h)) slots]>
         (<[fresh (dom h) := ObjectMap mm m id (next_index l)]> h)).
Proof.
  intros Ho Hc Hcont.
  assert (this ≠ fresh (dom h)) as Hne.
  { intros ->. apply (is_fresh (dom h)), elem_of_dom. by eexists. }
  unfold Object_newSlot. unfold mbind at 1, M_bind at 1, bind at 1.
  rewrite (load_Object_eq _ _ _ _ Ho).
  destruct Hc as [m mm Hm|m mm p i ix l Hm Hp]; exists mm;
    unfold new_ObjectMap_empty, new_ObjectMap_object; munfold;
    rewrite Hm; simpl; rewrite Hm;
    rewrite (lookup_insert_ne _ _ _ _ (not_eq_sym Hne)), Ho; simpl;
    rewrite (lookup_insert_ne _ _ _ _ Hne), lookup_insert_eq; [done|].
  destruct Hcont as [Hix _]. unfold next_index.
  by rewrite (next_index_wrap _ _ Hix).
Qed.

(** ** What [get] and [set] do on a chain *)

Lemma read_slot_eq h this m slots (i : N) v :
  h !! this = Some (Object m slots) → i < MAX_SLOTS →
  slots !! N.to_nat i = Some v →
  read_slot this i h = Ret v h.
Proof.
  intros Ho Hi Hv. unfold read_slot. unfold mbind, M_bind, bind.
  rewrite (load_Object_eq _ _ _ _ Ho). rewrite decide_True by done.
  by rewrite Hv.
Qed.

Lemma write_slot_eq h this m slots (i : N) v :
  h !! this = Some (Object m slots) → i < MAX_SLOTS →
  write_slot this i v h =
    Ret () (<[this := Object m (<[N.to_nat i := v]> slots)]> h).
Proof.
  intros Ho Hi. unfold write_slot. unfold mbind, M_bind, bind.
  rewrite (load_Object_eq _ _ _ _ Ho). by rewrite decide_True by done.
Qed.

Lemma write_slot_overflow h this m slots (i : N) v :
  h !! this = Some (Object m slots) → MAX_SLOTS ≤ i →
  write_slot this i v h = Undefined.
Proof.
  intros Ho Hi. unfold write_slot. unfold mbind, M_bind, bind.
  rewrite (load_Object_eq _ _ _ _ Ho). rewrite decide_False; [done|lia].
Qed.

Lemma Object_get_found h this m slots l id ix v :
  h !! this = Some (Object m slots) → chain h m l →
  resolve l id = Some ix → ix < MAX_SLOTS →
  slots !! N.to_nat ix = Some v →
  Object_get this id h = Ret (v, true) h.
Proof.
  intros Ho Hc Hr Hix Hv. unfold Object_get.
  unfold mbind at 1, M_bind at 1, bind at 1.
  rewrite (Object_index_chain _ _ _ _ _ _ Ho Hc). unfold resolve_pair.
  rewrite Hr. simpl. unfold mbind, M_bind, bind.
  by rewrite (read_slot_eq _ _ _ _ _ _ Ho Hix Hv).
Qed.

Lemma Object_get_absent h this m slots l id :
  h !! this = Some (Object m slots) → chain h m l →
  id ∉ l.*1 →
  Object_get this id h = Ret (0%Z, false) h.
Proof.
  intros Ho Hc Hr%resolve_None. unfold Object_get.
  unfold mbind at 1, M_bind at 1, bind at 1.
  rewrite (Object_index_chain _ _ _ _ _ _ Ho Hc). unfold resolve_pair.
  by rewrite Hr.
Qed.

Lemma Object_set_found h this m slots l id ix v :
  h !! this = Some (Object m slots) → chain h m l →
  resolve l id = Some ix → ix < MAX_SLOTS →
  Object_set this id v h =
    Ret ix (<[this := Object m (<[N.to_nat ix := v]> slots)]> h).
Proof.
  intros Ho Hc Hr Hix. unfold Object_set.
  unfold mbind at 1, M_bind at 1, bind at 1.
  rewrite (Object_index_chain _ _ _ _ _ _ Ho Hc). unfold resolve_pair.
  rewrite Hr. simpl. unfold mbind, M_bind, bind.
  by rewrite (write_slot_eq _ _ _ _ _ _ Ho Hix).
Qed.

Lemma next_index_mod l : next_index l mod Index_modulus = next_index l.
Proof. unfold next_index. by rewrite N.Div0.mod_mod. Qed.

Lemma Object_set_new h this m slots l id v :
  h !! this = Some (Object m slots) → chain h m l → contiguous l →
  id ∉ l.*1 → next_index l < MAX_SLOTS →
  ∃ mm, Object_set this id v h =
    Ret (next_index l)
      (<[this := Object (fresh (dom h))
                   (<[N.to_nat (next_index l) := v]> slots)]>
         (<[fresh (dom h) := ObjectMap mm m id (next_index l)]> h)).
Proof.
  intros Ho Hc Hcont Hr%resolve_None Hix.
  destruct (Object_newSlot_chain _ _ _ _ _ id Ho Hc Hcont) as [mm Hnew].
  exists mm. unfold Object_set.
  unfold mbind at 1, M_bind at 1, bind at 1.
  rewrite (Object_index_chain _ _ _ _ _ _ Ho Hc). unfold resolve_pair.
  rewrite Hr. simpl. unfold mbind at 1, M_bind at 1, bind at 1.
  rewrite Hnew. unfold mbind, M_bind, bind.
  erewrite write_slot_eq; [|apply lookup_insert_eq|done].
  by rewrite insert_insert_eq, next_index_mod.
Qed.

Lemma Object_set_overflow h this m slots l id v :
  h !! this = Some (Object m slots) → chain h m l → contiguous l →
  id ∉ l.*1 → MAX_SLOTS ≤ next_index l →
  Object_set this id v h = Undefined.
Proof.
  intros Ho Hc Hcont Hr%resolve_None Hix.
  destruct (Object_newSlot_chain _ _ _ _ _ id Ho Hc Hcont) as [mm Hnew].
  unfold Object_set. unfold mbind at 1, M_bind at 1, bind at 1.
  rewrite (Object_index_chain _ _ _ _ _ _ Ho Hc). unfold resolve_pair.
  rewrite Hr. simpl. unfold mbind at 1, M_bind at 1, bind at 1.
  rewrite Hnew. unfold mbind, M_bind, bind.
  erewrite write_slot_overflow; [done|apply lookup_insert_eq|done].
Qed.

(** ** Objects stay well formed *)

Lemma object_at_fresh h root mm :
  h !! root = Some (EmptyObjectMap mm) →
  ∃ h', new_Object root h = Ret (fresh (dom h)) h' ∧
    object_at h' (fresh (dom h)) root
      (replicate (N.to_nat MAX_SLOTS) 0%Z) [] ∧
    maps_preserved h h'.
Proof.
  intros Hr. eexists. split; [reflexivity|]. split.
  - split.
    + apply lookup_insert_eq.
    + eapply chain_preserved; [apply maps_preserved_alloc|].
      by eapply chain_empty.
    + done.
    + apply NoDup_nil_2.
    + apply length_replicate.
  - apply maps_preserved_alloc.
Qed.

Lemma object_at_write h this m slots l (i : nat) v :
  object_at h this m slots l →
  object_at (<[this := Object m (<[i := v]> slots)]> h) this m
    (<[i := v]> slots) l.
Proof.
  intros [Ho Hc Hcont Hnd Hlen]. split; try done.
  - apply lookup_insert_eq.
  - eapply chain_preserved; [|done]. by eapply maps_preserved_object.
  - by rewrite length_insert.
Qed.

Lemma object_at_extend h this m slots l mm id (i : nat) v :
  object_at h this m slots l → id ∉ l.*1 →
  object_at
    (<[this := Object (fresh (dom h)) (<[i := v]> slots)]>
       (<[fresh (dom h) := ObjectMap mm m id (next_index l)]> h))
    this (fresh (dom h)) (<[i := v]> slots) ((id, next_index l) :: l).
Proof.
  intros [Ho Hc Hcont Hnd Hlen] Hid.
  assert (this ≠ fresh (dom h)) as Hne.
  { intros ->. apply (is_fresh (dom h)), elem_of_dom. by eexists. }
  split.
  - apply lookup_insert_eq.
  - eapply chain_object.
    + rewrite lookup_insert_ne by done. apply lookup_insert_eq.
    + eapply chain_preserved; [|done].
      eapply maps_preserved_trans; [apply maps_preserved_alloc|].
      eapply maps_preserved_object. by rewrite lookup_insert_ne.
  - done.
  - simpl. by apply NoDup_cons.
  - by rewrite length_insert.
Qed.

Lemma NoDup_length_size (l : list Id) (X : gset Id) :
  NoDup l → (∀ x, x ∈ l → x ∈ X) → (length l ≤ size X)%nat.
Proof.
  intros Hnd Hin.
  assert (l ⊆+ elements X) as Hsub%submseteq_length; [|done].
  apply NoDup_submseteq; [done|]. intros x Hx. by apply elem_of_elements, Hin.
Qed.

(** ** A run of [set] calls *)

Lemma object_at_bound h this m slots l (X : gset Id) :
  object_at h this m slots l → (∀ id, id ∈ l.*1 → id ∈ X) →
  (size X ≤ N.to_nat MAX_SLOTS)%nat →
  (length l ≤ N.to_nat MAX_SLOTS)%nat.
Proof.
  intros [_ _ _ Hnd _] Hin HX.
  pose proof (NoDup_length_size _ _ Hnd Hin) as Hle.
  rewrite length_fmap in Hle. lia.
Qed.

Lemma contents_write slots l id ix v id' :
  contiguous l → (length l ≤ N.to_nat MAX_SLOTS)%nat →
  length slots = N.to_nat MAX_SLOTS →
  resolve l id = Some ix →
  contents (<[N.to_nat ix := v]> slots) l id' =
    if decide (id = id') then Some v else contents slots l id'.
Proof.
  intros Hcont Hl Hs Hr. rewrite MAX_SLOTS_nat in *.
  assert (ix < N.of_nat (length l)) as Hix.
  { eapply resolve_lt; [done| |done]. rewrite Index_modulus_nat. lia. }
  unfold contents. case_decide as Hid.
  - subst id'. rewrite Hr. simpl. apply list_lookup_insert_eq. lia.
  - destruct (resolve l id') as [ix'|] eqn:Hr'; simpl; [|done].
    apply list_lookup_insert_ne. intros Heq%(inj N.to_nat). subst ix'.
    apply Hid. eapply resolve_inj; [done| |done..].
    rewrite Index_modulus_nat. lia.
Qed.

Lemma contents_extend slots l id v id' :
  contiguous l → (length l < N.to_nat MAX_SLOTS)%nat →
  length slots = N.to_nat MAX_SLOTS →
  contents (<[N.to_nat (next_index l) := v]> slots)
      ((id, next_index l) :: l) id' =
    if decide (id = id') then Some v else contents slots l id'.
Proof.
  intros Hcont Hl Hs. rewrite MAX_SLOTS_nat in *.
  assert (next_index l = N.of_nat (length l)) as Hn.
  { unfold next_index. apply index_small. rewrite Index_modulus_nat. lia. }
  unfold contents. simpl. case_decide as Hid; simpl.
  - apply list_lookup_insert_eq. lia.
  - destruct (resolve l id') as [ix'|] eqn:Hr'; simpl; [|done].
    apply list_lookup_insert_ne. intros Heq%(inj N.to_nat).
    eapply resolve_lt in Hr'; [|done|rewrite Index_modulus_nat; lia]. lia.
Qed.

Lemma Object_set_all_spec (X : gset Id) ws :
  (size X ≤ N.to_nat MAX_SLOTS)%nat →
  ∀ h this m slots l,
    object_at h this m slots l →
    (∀ id, id ∈ l.*1 → id ∈ X) →
    (∀ id, id ∈ ws.*1 → id ∈ X) →
    ∃ h' m' slots' l',
      Object_set_all this ws h = Ret () h' ∧
      object_at h' this m' slots' l' ∧
      maps_preserved h h' ∧
      (∀ id, id ∈ l'.*1 ↔ id ∈ l.*1 ∨ id ∈ ws.*1) ∧
      (∀ id, contents slots' l' id =
               match last_write id ws with
               | Some v => Some v
               | None => contents slots l id
               end).
Proof.
  intros HX. induction ws as [|[id v] ws IH]; intros h this m slots l Hat Hl Hws.
  - exists h, m, slots, l. split_and!; try done.
    + apply maps_preserved_refl.
    + intros id. rewrite elem_of_nil. split; [by left|by intros [?|[]]].
  - pose proof (object_at_bound _ _ _ _ _ _ Hat Hl HX) as Hlen.
    pose proof Hat as [Ho Hc Hcont Hnd Hs].
    simpl. unfold mbind at 1, M_bind at 1, bind at 1.
    destruct (resolve l id) as [ix|] eqn:Hr.
    + assert (ix < MAX_SLOTS) as Hix.
      { eapply resolve_lt in Hr; [|done|]; bounds_lia. }
      rewrite (Object_set_found _ _ _ _ _ _ _ v Ho Hc Hr Hix).
      edestruct (IH _ this _ _ l (object_at_write _ _ _ _ _ (N.to_nat ix) v Hat))
        as (h' & m' & slots' & l' & Hrun & Hat' & Hmp & Hids & Hcts).
      { done. } { intros i Hi. apply Hws. simpl. by right. }
      exists h', m', slots', l'. split_and!; try done.
      * eapply maps_preserved_trans; [|done]. by eapply maps_preserved_object.
      * intros i. rewrite Hids. simpl. rewrite elem_of_cons.
        apply resolve_Some_elem in Hr. split; [tauto|].
        intros [?|[->|?]]; tauto.
      * intros i. rewrite Hcts. simpl. destruct (last_write i ws); [done|].
        rewrite (contents_write _ _ _ _ _ _ Hcont Hlen Hs Hr).
        by case_decide.
    + apply resolve_None in Hr.
      assert (length ((id, next_index l) :: l) ≤ N.to_nat MAX_SLOTS)%nat as Hlen'.
      { eapply object_at_bound with (X := X); [|  |done].
        - apply (object_at_extend _ _ _ _ _ 1%positive id 0%nat 0%Z Hat Hr).
        - intros i [->|Hi]%elem_of_cons; [|by apply Hl].
          apply Hws. simpl. by left. }
      simpl in Hlen'.
      assert (next_index l < MAX_SLOTS) as Hix.
      { unfold next_index. rewrite index_small; bounds_lia. }
      destruct (Object_set_new _ _ _ _ _ _ v Ho Hc Hcont Hr Hix) as [mm ->].
      edestruct (IH _ this _ _ _
          (object_at_extend _ _ _ _ _ mm id (N.to_nat (next_index l)) v Hat Hr))
        as (h' & m' & slots' & l' & Hrun & Hat' & Hmp & Hids & Hcts).
      { intros i [->|Hi]%elem_of_cons; [|by apply Hl].
        apply Hws. simpl. by left. }
      { intros i Hi. apply Hws. simpl. by right. }
      exists h', m', slots', l'. split_and!; try done.
      * eapply maps_preserved_trans; [|done].
        eapply maps_preserved_trans; [apply maps_preserved_alloc|].
        eapply maps_preserved_object. rewrite lookup_insert_ne; [done|].
        intros <-. apply (is_fresh (dom h)), elem_of_dom. by eexists.
      * intros i. rewrite Hids. simpl. rewrite !elem_of_cons. tauto.
      * intros i. rewrite Hcts. simpl. destruct (last_write i ws); [done|].
        rewrite contents_extend; [by case_decide|done|bounds_lia|done].
Qed.

(** ** [newSlot] on any heap *)

Lemma fresh_ne (h : heap) p c : h !! p = Some c → p ≠ fresh (dom h).
Proof. intros H ->. apply (is_fresh (dom h)), elem_of_dom. by eexists. Qed.

Lemma Object_newSlot_Ret this id h n h' :
  Object_newSlot this id h = Ret n h' →
  ∃ m slots c,
    h !! this = Some (Object m slots) ∧ h !! m = Some c ∧
    match c with
    | EmptyObjectMap _ => n = 0
    | ObjectMap _ _ _ pix => n = (pix + 1) mod Index_modulus
    | _ => False
    end ∧
    h' = <[this := Object (fresh (dom h)) slots]>
           (<[fresh (dom h) := ObjectMap (Cell_map c) m id n]> h).
Proof.
  unfold Object_newSlot, load_Object, new_ObjectMap_empty, new_ObjectMap_object.
  munfold. destruct (h !! this) as [[| | |m slots]|] eqn:Ho; try done.
  pose proof (fresh_ne _ _ _ Ho) as Hne.
  destruct (h !! m) as [c|] eqn:Hm; [|done].
  destruct c as [mm|mm|mm p i pix|]; simpl; try done; rewrite Hm;
    rewrite (lookup_insert_ne _ _ _ _ (not_eq_sym Hne)), Ho; simpl;
    rewrite (lookup_insert_ne _ _ _ _ Hne), lookup_insert_eq;
    intros [= <- <-]; exists m, slots; eexists; split_and!; try done.
Qed.

Lemma Object_newSlot_Throw this id h e h' :
  Object_newSlot this id h = Throw e h' ↔
  e = InvalidShapeKind ∧ h' = h ∧
  ∃ m slots c, h !! this = Some (Object m slots) ∧ h !! m = Some c ∧
    Map_kind c = Some MAP_MAP.
Proof.
  unfold Object_newSlot, load_Object, new_ObjectMap_empty, new_ObjectMap_object.
  munfold. split.
  - destruct (h !! this) as [[| | |m slots]|] eqn:Ho; try done.
    pose proof (fresh_ne _ _ _ Ho) as Hne.
    destruct (h !! m) as [c|] eqn:Hm; [|done].
    destruct c as [mm|mm|mm p i pix|]; simpl; try done.
    + intros [= <- <-]. split_and!; try done. by exists m, slots, (MapMap mm).
    + rewrite Hm.
      rewrite (lookup_insert_ne _ _ _ _ (not_eq_sym Hne)), Ho; simpl.
      by rewrite (lookup_insert_ne _ _ _ _ Hne), lookup_insert_eq.
    + rewrite Hm.
      rewrite (lookup_insert_ne _ _ _ _ (not_eq_sym Hne)), Ho; simpl.
      by rewrite (lookup_insert_ne _ _ _ _ Hne), lookup_insert_eq.
  - intros (-> & -> & m & slots & c & Ho & Hm & Hk). rewrite Ho, Hm.
    by destruct c.
Qed.

Lemma Object_newSlot_no_Timeout this id h :
  Object_newSlot this id h ≠ Timeout.
Proof.
  unfold Object_newSlot, load_Object, new_ObjectMap_empty, new_ObjectMap_object.
  munfold. destruct (h !! this) as [[| | |m slots]|] eqn:Ho; try done.
  pose proof (fresh_ne _ _ _ Ho) as Hne.
  destruct (h !! m) as [c|] eqn:Hm; [|done].
  destruct c as [mm|mm|mm p i pix|]; simpl; try done; rewrite Hm;
    rewrite (lookup_insert_ne _ _ _ _ (not_eq_sym Hne)), Ho; simpl;
    by rewrite (lookup_insert_ne _ _ _ _ Hne), lookup_insert_eq.
Qed.

Lemma Object_newSlot_maps this id h n h' :
  Object_newSlot this id h = Ret n h' → maps_preserved h h'.
Proof.
  intros (m & slots & c & Ho & Hm & _ & ->)%Object_newSlot_Ret.
  eapply maps_preserved_trans; [apply maps_preserved_alloc|].
  eapply maps_preserved_object. rewrite lookup_insert_ne; [done|].
  by eapply not_eq_sym, fresh_ne.
Qed.

(** ** [index], [get] and [set] on any heap *)

Lemma Object_index_Ret this id h r h' :
  Object_index this id h = Ret r h' →
  h' = h ∧ ∃ m slots, h !! this = Some (Object m slots) ∧
    index_loop (walk_fuel h) m id h = Ret r h.
Proof.
  intros H. pose proof (Object_index_heap _ _ _ _ _ H) as ->.
  split; [done|]. revert H. unfold Object_index. unfold mbind, M_bind, bind.
  destruct (load_Object this h) as [[m s] h1| | |] eqn:E; try done.
  apply load_Object_inv in E as [-> E]. eauto.
Qed.

Lemma index_loop_frame fuel m id h r this c c' :
  index_loop fuel m id h = Ret r h →
  h !! this = Some c → is_map c = false →
  index_loop fuel m id (<[this := c']> h) = Ret r (<[this := c']> h).
Proof.
  intros H Ho Hc. revert m H.
  induction fuel as [|fuel IH]; intros m; simpl; [done|]. munfold.
  destruct (h !! m) as [cm|] eqn:Hm; [|done].
  destruct (decide (this = m)) as [->|Hne].
  { rewrite Ho in Hm. injection Hm as <-. by destruct c. }
  rewrite (lookup_insert_ne _ _ _ _ Hne), Hm.
  destruct cm; try done.
  - by intros [= <-].
  - case_decide; [by intros [= <-]|]. apply IH.
Qed.

Lemma Object_index_frame this id h r m slots slots' :
  Object_index this id h = Ret r h →
  h !! this = Some (Object m slots) →
  Object_index this id (<[this := Object m slots']> h) =
    Ret r (<[this := Object m slots']> h).
Proof.
  intros (_ & m0 & s0 & Ho & Hl)%Object_index_Ret Ho'.
  rewrite Ho in Ho'. injection Ho' as -> ->.
  unfold Object_index. unfold mbind, M_bind, bind.
  erewrite load_Object_eq; [|apply lookup_insert_eq].
  assert (walk_fuel (<[this := Object m slots']> h) = walk_fuel h) as ->.
  { unfold walk_fuel. f_equal. by eapply map_size_insert_Some. }
  by eapply index_loop_frame.
Qed.

Lemma write_slot_Ret this i v h u h' :
  write_slot this i v h = Ret u h' →
  i < MAX_SLOTS ∧ ∃ m slots, h !! this = Some (Object m slots) ∧
    h' = <[this := Object m (<[N.to_nat i := v]> slots)]> h.
Proof.
  unfold write_slot, load_Object. munfold.
  destruct (h !! this) as [[| | |m slots]|] eqn:Ho; try done.
  case_decide; [|done]. intros [= <-]. eauto.
Qed.

Lemma write_slot_no_Throw this i v h e h' :
  write_slot this i v h ≠ Throw e h'.
Proof.
  unfold write_slot, load_Object. munfold.
  destruct (h !! this) as [[| | |m slots]|] eqn:Ho; try done.
  by case_decide.
Qed.

Lemma write_slot_no_Timeout this i v h : write_slot this i v h ≠ Timeout.
Proof.
  unfold write_slot, load_Object. munfold.
  destruct (h !! this) as [[| | |m slots]|] eqn:Ho; try done.
  by case_decide.
Qed.

Lemma read_slot_heap this i h o :
  read_slot this i h = o →
  match o with Ret _ h' => h' = h | Throw _ _ | Timeout => False | Undefined => True end.
Proof.
  intros <-. unfold read_slot, load_Object. munfold.
  destruct (h !! this) as [[| | |m slots]|] eqn:Ho; try done.
  case_decide; [|done]. by destruct (slots !! N.to_nat i).
Qed.

Lemma read_slot_no_Throw this i h e h' : read_slot this i h ≠ Throw e h'.
Proof.
  intros H. pose proof (read_slot_heap this i h _ eq_refl) as Hr.
  by rewrite H in Hr.
Qed.

Lemma read_slot_no_Timeout this i h : read_slot this i h ≠ Timeout.
Proof.
  intros H. pose proof (read_slot_heap this i h _ eq_refl) as Hr.
  by rewrite H in Hr.
Qed.

Lemma Object_get_Ret this id h r h' :
  Object_get this id h = Ret r h' → h' = h.
Proof.
  unfold Object_get. unfold mbind at 1, M_bind at 1, bind at 1.
  destruct (Object_index this id h) as [[ix b] h1|e h1| |] eqn:E; try done.
  apply Object_index_heap in E as ->. destruct b; [|by intros [= _ <-]].
  unfold mbind, M_bind, bind.
  pose proof (read_slot_heap this ix h _ eq_refl) as Hr.
  destruct (read_slot this ix h); try done. by intros [= _ <-].
Qed.

Lemma Object_get_no_Throw this id h e h' :
  Object_get this id h ≠ Throw e h'.
Proof.
  unfold Object_get. unfold mbind at 1, M_bind at 1, bind at 1.
  destruct (Object_index this id h) as [[ix b] h1|e1 h1| |] eqn:E; try done.
  - destruct b; [|done]. unfold mbind, M_bind, bind.
    destruct (read_slot this ix h1) eqn:Er; try done.
    by apply read_slot_no_Throw in Er.
  - by apply Object_index_no_throw in E.
Qed.

Lemma Object_set_Ret this id v h i h' :
  Object_set this id v h = Ret i h' →
  ∃ m slots, h !! this = Some (Object m slots) ∧ i < MAX_SLOTS ∧
    ((Object_index this id h = Ret (i, true) h ∧
      h' = <[this := Object m (<[N.to_nat i := v]> slots)]> h) ∨
     (Object_index this id h = Ret (0, false) h ∧
      ∃ c, h !! m = Some c ∧
        Object_newSlot this id h =
          Ret i (<[this := Object (fresh (dom h)) slots]>
                   (<[fresh (dom h) := ObjectMap (Cell_map c) m id i]> h)) ∧
        h' = <[this := Object (fresh (dom h)) (<[N.to_nat i := v]> slots)]>
               (<[fresh (dom h) := ObjectMap (Cell_map c) m id i]> h))).
Proof.
  unfold Object_set. unfold mbind at 1, M_bind at 1, bind at 1.
  destruct (Object_index this id h) as [[ix b] h1|e h1| |] eqn:E; try done.
  pose proof E as (-> & m & slots & Ho & Hl)%Object_index_Ret.
  intros H. exists m, slots. split; [done|]. destruct b.
  - revert H. unfold mbind, M_bind, bind.
    destruct (write_slot this ix v h) as [u h2| | |] eqn:Ew; try done.
    intros [= <- <-].
    apply write_slot_Ret in Ew as (Hix & m' & slots' & Ho' & ->).
    simplify_eq. split; [done|]. by left.
  - assert (ix = 0) as ->.
    { clear -Hl. revert m Hl. generalize (walk_fuel h).
      induction n as [|fuel IH]; intros m; simpl; [done|]. munfold.
      destruct (h !! m) as [[]|]; try done.
      - by intros [= <-].
      - case_decide; [done|]. apply IH. }
    revert H. unfold mbind at 1, M_bind at 1, bind at 1.
    destruct (Object_newSlot this id h) as [n h2| | |] eqn:En; try done.
    pose proof En as (m' & slots' & c & Ho' & Hm & Hn & ->)%Object_newSlot_Ret.
    simplify_eq. unfold mbind, M_bind, bind.
    destruct (write_slot _ _ _ _) as [u h3| | |] eqn:Ew; try done.
    intros [= <- <-].
    apply write_slot_Ret in Ew as (Hix & m' & slots' & Ho' & ->).
    rewrite lookup_insert_eq in Ho'. simplify_eq.
    assert (n mod Index_modulus = n) as Hmod.
    { destruct c; try done; subst n; [done|]. by rewrite N.Div0.mod_mod. }
    rewrite Hmod in *. split; [done|]. right. split; [done|].
    exists c. split_and!; try done. by rewrite insert_insert_eq.
Qed.

Lemma Object_set_Throw this id v h e h' :
  Object_set this id v h = Throw e h' → h' = h.
Proof.
  unfold Object_set. unfold mbind at 1, M_bind at 1, bind at 1.
  destruct (Object_index this id h) as [[ix b] h1|e1 h1| |] eqn:E; try done.
  - apply Object_index_heap in E as ->. destruct b.
    + unfold mbind, M_bind, bind.
      destruct (write_slot this ix v h) as [u h2| | |] eqn:Ew; try done.
      by apply write_slot_no_Throw in Ew.
    + unfold mbind at 1, M_bind at 1, bind at 1.
      destruct (Object_newSlot this id h) as [n h2| | |] eqn:En; try done.
      * unfold mbind, M_bind, bind.
        destruct (write_slot _ _ _ _) as [u h3| | |] eqn:Ew; try done.
        by apply write_slot_no_Throw in Ew.
      * apply Object_newSlot_Throw in En as (_ & -> & _). by intros [= _ <-].
  - by apply Object_index_no_throw in E.
Qed.

Lemma Object_set_maps this id v h i h' :
  Object_set this id v h = Ret i h' → maps_preserved h h'.
Proof.
  intros (m & slots & Ho & _ & [[_ ->]|[_ (c & Hm & _ & ->)]])%Object_set_Ret.
  - by eapply maps_preserved_object.
  - eapply maps_preserved_trans; [apply maps_preserved_alloc|].
    eapply maps_preserved_object. rewrite lookup_insert_ne; [done|].
    by eapply not_eq_sym, fresh_ne.
Qed.

Lemma run_call_maps c h h' : run_call c h = Some h' → maps_preserved h h'.
Proof.
  destruct c as [this id|this id v|this id]; simpl.
  - destruct (Object_get this id h) as [r h1|e h1| |] eqn:E; simpl; try done.
    + intros [= <-]. apply Object_get_Ret in E as ->.
      apply maps_preserved_refl.
    + by apply Object_get_no_Throw in E.
  - destruct (Object_set this id v h) as [r h1|e h1| |] eqn:E; simpl; try done.
    + intros [= <-]. by eapply Object_set_maps.
    + intros [= <-]. apply Object_set_Throw in E as ->.
      apply maps_preserved_refl.
  - destruct (Object_newSlot this id h) as [r h1|e h1| |] eqn:E; simpl;
      try done.
    + intros [= <-]. by eapply Object_newSlot_maps.
    + intros [= <-]. apply Object_newSlot_Throw in E as (_ & -> & _).
      apply maps_preserved_refl.
Qed.

Lemma object_at_set h this m slots l id v i h' :
  object_at h this m slots l →
  Object_set this id v h = Ret i h' →
  ∃ m' slots' l', object_at h' this m' slots' l'.
Proof.
  intros Hat Hset. pose proof Hat as [Ho Hc Hcont _ _].
  destruct (Object_set_Ret _ _ _ _ _ _ Hset)
    as (m0 & s0 & Ho' & _ & [[_ ->]|[Hi (c & _ & Hnew & ->)]]);
    rewrite Ho in Ho'; injection Ho' as <- <-.
  - eexists _, _, _. by apply object_at_write.
  - rewrite (Object_index_chain _ _ _ _ _ id Ho Hc) in Hi.
    unfold resolve_pair in Hi.
    destruct (resolve l id) eqn:Hr; [done|]. apply resolve_None in Hr.
    destruct (Object_newSlot_chain _ _ _ _ _ id Ho Hc Hcont) as [mm Hnew'].
    rewrite Hnew' in Hnew. injection Hnew as <- _.
    eexists _, _, _. by apply object_at_extend.
Qed.

(** ** Checking concrete heaps *)

Lemma chain_list_sound fuel h m l : chain_list fuel h m = Some l → chain h m l.
Proof.
  revert m l. induction fuel as [|fuel IH]; intros m l; simpl; [done|].
  destruct (h !! m) as [[mm|mm|mm p i ix|]|] eqn:Hm; try done.
  - intros [= <-]. by eapply chain_empty.
  - destruct (chain_list fuel h p) as [l'|] eqn:Hl; simpl; [|done].
    intros [= <-]. eapply chain_object; eauto.
Qed.

Lemma check_object_sound h this m slots l :
  check_object h this = Some (m, slots, l) → object_at h this m slots l.
Proof.
  unfold check_object.
  destruct (h !! this) as [[| | |m' slots']|] eqn:Ho; try done.
  destruct (chain_list _ h m') as [l'|] eqn:Hl; simpl; [|done].
  case_bool_decide as Hd; [|done]. intros [= -> -> ->].
  destruct Hd as (? & ? & ?). split; try done. by eapply chain_list_sound.
Qed.

(** * The claims *)

(** ** C1: the capacity boundary *)

(** C1, as the code has it.  On an object with 31 distinct properties,
    [set] with a 32nd distinct identifier returns slot index 31, stores the
    value there and moves the object onto a new [ObjectMap] with index 31.
    There is no capacity check: on an object with 32 distinct properties,
    [newSlot] with a 33rd distinct identifier throws nothing; it moves the
    object onto a new [ObjectMap] with index 32 and returns 32. *)
Theorem C1_capacity_boundary h this m slots l id v :
  object_at h this m slots l → id ∉ l.*1 →
  (length l = 31%nat →
   ∃ mm, Object_set this id v h =
     Ret 31
       (<[this := Object (fresh (dom h)) (<[31%nat := v]> slots)]>
          (<[fresh (dom h) := ObjectMap mm m id 31]> h))) ∧
  (length l = 32%nat →
   ∃ mm, Object_newSlot this id h =
     Ret 32
       (<[this := Object (fresh (dom h)) slots]>
          (<[fresh (dom h) := ObjectMap mm m id 32]> h))).
Proof.
  intros [Ho Hc Hcont _ _] Hid. split; intros Hl.
  - assert (next_index l = 31) as Hn by (unfold next_index; by rewrite Hl).
    destruct (Object_set_new _ _ _ _ _ _ v Ho Hc Hcont Hid) as [mm Hset].
    { by rewrite Hn. }
    exists mm. by rewrite Hset, Hn.
  - assert (next_index l = 32) as Hn by (unfold next_index; by rewrite Hl).
    destruct (Object_newSlot_chain _ _ _ _ _ id Ho Hc Hcont) as [mm Hnew].
    exists mm. by rewrite Hnew, Hn.
Qed.

(** C1 at the objects of [heap_31] and [heap_full], which [set] built. *)
Lemma C1_capacity_boundary_witness :
  (∃ m slots l,
     object_at heap_31 the_object m slots l ∧ (31 ∉ l.*1) ∧
     length l = 31%nat ∧
     ∃ mm, Object_set the_object 31 7%Z heap_31 =
       Ret 31
         (<[the_object := Object (fresh (dom heap_31)) (<[31%nat := 7%Z]> slots)]>
            (<[fresh (dom heap_31) := ObjectMap mm m 31 31]> heap_31))) ∧
  (∃ m slots l,
     object_at heap_full the_object m slots l ∧ (32 ∉ l.*1) ∧
     length l = 32%nat ∧
     ∃ mm, Object_newSlot the_object 32 heap_full =
       Ret 32
         (<[the_object := Object (fresh (dom heap_full)) slots]>
            (<[fresh (dom heap_full) := ObjectMap mm m 32 32]> heap_full))).
Proof.
  split.
  - destruct (check_object heap_31 the_object) as [[[m slots] l]|] eqn:E;
      [|vm_compute in E; discriminate].
    pose proof (check_object_sound _ _ _ _ _ E) as Hat.
    assert ((31 ∉ l.*1) ∧ length l = 31%nat) as [Hid Hl].
    { vm_compute in E. injection E as <- <- <-. split; [|reflexivity].
      apply resolve_None. vm_compute. reflexivity. }
    exists m, slots, l. split_and!; [done..|].
    by apply (C1_capacity_boundary heap_31 the_object m slots l 31 7%Z Hat Hid).
  - destruct (check_object heap_full the_object) as [[[m slots] l]|] eqn:E;
      [|vm_compute in E; discriminate].
    pose proof (check_object_sound _ _ _ _ _ E) as Hat.
    assert ((32 ∉ l.*1) ∧ length l = 32%nat) as [Hid Hl].
    { vm_compute in E. injection E as <- <- <-. split; [|reflexivity].
      apply resolve_None. vm_compute. reflexivity. }
    exists m, slots, l. split_and!; [done..|].
    by apply (C1_capacity_boundary heap_full the_object m slots l 32 7%Z Hat Hid).
Defined.

(** C1 as the spec states it fails: [heap_full] holds an object that 32
    calls of [set] gave 32 distinct properties.  With a 33rd identifier
    [newSlot] returns 32, and neither [newSlot] nor [set] throws. *)
Lemma C1_counterexample :
  Object_set_all the_object (writes 32) heap_object = Ret () heap_full ∧
  (∃ m slots l, object_at heap_full the_object m slots l ∧
     length l = 32%nat ∧ (32 ∉ l.*1)) ∧
  (∃ h', Object_newSlot the_object 32 heap_full = Ret 32 h') ∧
  thrown (Object_newSlot the_object 32 heap_full) = None ∧
  thrown (Object_set the_object 32 7%Z heap_full) = None.
Proof.
  split_and!.
  - vm_compute. reflexivity.
  - destruct (check_object heap_full the_object) as [[[m slots] l]|] eqn:E;
      [|vm_compute in E; discriminate].
    pose proof (check_object_sound _ _ _ _ _ E) as Hat.
    exists m, slots, l. split; [done|].
    vm_compute in E. injection E as <- <- <-. split; [reflexivity|].
    apply resolve_None. vm_compute. reflexivity.
  - eexists. vm_compute. reflexivity.
  - vm_compute. reflexivity.
  - vm_compute. reflexivity.
Qed.

(** Past the boundary [set] is a different matter: on the object of
    [heap_full], with a 33rd identifier, it goes on to store to
    [slots_[32]], one past the array. *)
Example set_past_capacity :
  Object_set the_object 32 7%Z heap_full = Undefined.
Proof. vm_compute. reflexivity. Qed.

(** ** C2: [get] after a run of [set] *)

Lemma last_write_snoc_eq id v ws : last_write id (ws ++ [(id, v)]) = Some v.
Proof.
  induction ws as [|[i w] ws IH]; simpl.
  - by rewrite decide_True.
  - by rewrite IH.
Qed.

Lemma last_write_snoc_ne id i v ws :
  i ≠ id → last_write id (ws ++ [(i, v)]) = last_write id ws.
Proof.
  intros Hne. induction ws as [|[j w] ws IH]; simpl.
  - by rewrite decide_False.
  - by rewrite IH.
Qed.

Lemma last_write_elem id ws : id ∈ ws.*1 → is_Some (last_write id ws).
Proof.
  induction ws as [|[i w] ws IH]; simpl.
  - by intros ?%elem_of_nil.
  - intros [->|Hin]%elem_of_cons.
    + destruct (last_write i ws); [by eexists|].
      rewrite decide_True by done. by eexists.
    + destruct (IH Hin) as [v ->]. by eexists.
Qed.

(** C2.  On a fresh object, after any run of [set] calls that uses at most
    [MAX_SLOTS] distinct identifiers, [get] returns [(v, true)] for every
    identifier of the run, [v] being the value the last [set] for it wrote,
    and [(0, false)] for every identifier that is not on the chain of the
    object (the identifiers on the chain are those of the run). *)
Theorem C2_get_after_set (h : heap) (root mm : ptr) (ws : list (Id * Value)) :
  h !! root = Some (EmptyObjectMap mm) →
  (size (list_to_set (ws.*1) : gset Id) ≤ N.to_nat MAX_SLOTS)%nat →
  ∃ this h1 h2 m slots l,
    new_Object root h = Ret this h1 ∧
    Object_set_all this ws h1 = Ret () h2 ∧
    h2 !! this = Some (Object m slots) ∧ chain h2 m l ∧
    (∀ id, id ∈ l.*1 ↔ id ∈ ws.*1) ∧
    (∀ id, id ∈ ws.*1 →
       ∃ v, last_write id ws = Some v ∧
            Object_get this id h2 = Ret (v, true) h2) ∧
    (∀ id, id ∉ l.*1 → Object_get this id h2 = Ret (0%Z, false) h2).
Proof.
  intros Hroot Hsize.
  destruct (object_at_fresh _ _ _ Hroot) as (h1 & Hnew & Hat & _).
  destruct (Object_set_all_spec (list_to_set (ws.*1)) ws Hsize _ _ _ _ _ Hat)
    as (h2 & m & slots & l & Hrun & Hat2 & _ & Hids & Hcts).
  { by intros id ?%elem_of_nil. }
  { intros id Hid. by apply elem_of_list_to_set. }
  pose proof Hat2 as [Ho Hc Hcont Hnd Hlen].
  exists (fresh (dom h)), h1, h2, m, slots, l. split_and!; try done.
  - intros id. rewrite Hids. simpl. rewrite elem_of_nil. tauto.
  - intros id Hid. destruct (last_write_elem _ _ Hid) as [v Hv].
    exists v. split; [done|]. specialize (Hcts id). rewrite Hv in Hcts.
    unfold contents in Hcts.
    destruct (resolve l id) as [ix|] eqn:Hr; simpl in Hcts; [|done].
    eapply Object_get_found; [done..| |done].
    apply lookup_lt_Some in Hcts. bounds_lia.
  - intros id Hid. by eapply Object_get_absent.
Qed.

(** C2 on the scenario of the spec: [set(O, 0, 10)] and [set(O, 1, 20)]
    on a fresh object. *)
Lemma C2_get_after_set_witness :
  heap_init !! 2%positive = Some (EmptyObjectMap 1%positive) ∧
  (size (list_to_set (scenario_writes.*1) : gset Id)
     ≤ N.to_nat MAX_SLOTS)%nat ∧
  ∃ this h1 h2 m slots l,
    new_Object 2%positive heap_init = Ret this h1 ∧
    Object_set_all this scenario_writes h1 = Ret () h2 ∧
    h2 !! this = Some (Object m slots) ∧ chain h2 m l ∧
    (∀ id, id ∈ l.*1 ↔ id ∈ scenario_writes.*1) ∧
    (∀ id, id ∈ scenario_writes.*1 →
       ∃ v, last_write id scenario_writes = Some v ∧
            Object_get this id h2 = Ret (v, true) h2) ∧
    (∀ id, id ∉ l.*1 → Object_get this id h2 = Ret (0%Z, false) h2).
Proof.
  assert (heap_init !! 2%positive = Some (EmptyObjectMap 1%positive)) as H1
    by reflexivity.
  assert (size (list_to_set (scenario_writes.*1) : gset Id)
            ≤ N.to_nat MAX_SLOTS)%nat as H2 by (vm_compute; lia).
  split; [exact H1|]. split; [exact H2|].
  exact (C2_get_after_set heap_init 2%positive 1%positive
           scenario_writes H1 H2).
Defined.

(** The scenario of the spec, run. *)
Example scenario_run :
  (this ← new_Object 2%positive;
   s0 ← Object_set this 0 10%Z;
   s1 ← Object_set this 1 20%Z;
   g0 ← Object_get this 0;
   g2 ← Object_get this 2;
   ret (s0, s1, g0, g2)) heap_init
  = Ret (0, 1, (10%Z, true), (0%Z, false))
      (heap_of (Object_set_all the_object scenario_writes heap_object)).
Proof. vm_compute. reflexivity. Qed.

(** ** C3: slot indices along a chain *)

Lemma index_rule_contiguous l : index_rule l ↔ contiguous l.
Proof.
  induction l as [|[i ix] l IH]; simpl; [done|].
  rewrite <- IH. destruct l as [|[j pix] l]; simpl.
  - split; intros [-> ?]; done.
  - split; intros [-> [Hp Hr]]; (split; [|done]).
    + apply next_index_wrap. apply IH. by split.
    + symmetry. apply next_index_wrap. apply IH. by split.
Qed.

Lemma contiguous_small l :
  contiguous l → (length l ≤ N.to_nat Index_modulus)%nat → index_rule_exact l.
Proof.
  induction l as [|[i ix] l IH]; simpl; [done|]. intros [-> Hc] Hl.
  split; [|apply IH; [done|lia]].
  destruct l as [|[j pix] l]; simpl in *; [done|]. destruct Hc as [-> _].
  rewrite !index_small by lia. lia.
Qed.

Lemma indices_from_root_contiguous l :
  contiguous l →
  indices_from_root l =
    (λ k, N.of_nat k mod Index_modulus) <$> seq 0 (length l).
Proof.
  unfold indices_from_root. induction l as [|[i ix] l IH]; [done|].
  intros [-> Hc]. rewrite fmap_cons, reverse_cons, IH by done.
  rewrite length_cons, seq_S, fmap_app. done.
Qed.

Lemma fmap_seq_small (n : nat) :
  (n ≤ N.to_nat Index_modulus)%nat →
  (λ k, N.of_nat k mod Index_modulus) <$> seq 0 n = N.of_nat <$> seq 0 n.
Proof.
  intros Hn. apply list_fmap_ext. intros i k Hk%lookup_seq.
  apply index_small. lia.
Qed.

Lemma chain_extend h this m slots l mm id ix slots' :
  h !! this = Some (Object m slots) → chain h m l →
  chain (<[this := Object (fresh (dom h)) slots']>
           (<[fresh (dom h) := ObjectMap mm m id ix]> h))
    (fresh (dom h)) ((id, ix) :: l).
Proof.
  intros Ho Hc. pose proof (fresh_ne _ _ _ Ho) as Hne.
  eapply chain_object.
  - rewrite lookup_insert_ne by done. apply lookup_insert_eq.
  - eapply chain_preserved; [|done].
    eapply maps_preserved_trans; [apply maps_preserved_alloc|].
    eapply maps_preserved_object. by rewrite lookup_insert_ne.
Qed.

Lemma Object_newSlot_all_spec ids :
  ∀ h this m slots l,
    h !! this = Some (Object m slots) → chain h m l → contiguous l →
    ∃ h' m' l',
      Object_newSlot_all this ids h = Ret () h' ∧
      h' !! this = Some (Object m' slots) ∧ chain h' m' l' ∧
      contiguous l' ∧ l'.*1 = reverse ids ++ l.*1 ∧
      maps_preserved h h'.
Proof.
  induction ids as [|id ids IH]; intros h this m slots l Ho Hc Hcont.
  - exists h, m, l. split_and!; try done. apply maps_preserved_refl.
  - simpl. unfold mbind, M_bind, bind.
    destruct (Object_newSlot_chain _ _ _ _ _ id Ho Hc Hcont) as [mm Hnew].
    rewrite Hnew.
    edestruct (IH (<[this := Object (fresh (dom h)) slots]>
                     (<[fresh (dom h) := ObjectMap mm m id (next_index l)]> h))
                 this (fresh (dom h)) slots ((id, next_index l) :: l))
      as (h' & m' & l' & Hrun & Ho' & Hc' & Hcont' & Hids & Hmp).
    { apply lookup_insert_eq. } { by eapply chain_extend. } { done. }
    exists h', m', l'. split_and!; try done.
    + rewrite Hids, reverse_cons. simpl. by rewrite <- app_assoc.
    + eapply maps_preserved_trans; [|done].
      eapply maps_preserved_trans; [apply maps_preserved_alloc|].
      eapply maps_preserved_object. rewrite lookup_insert_ne; [done|].
      by eapply not_eq_sym, fresh_ne.
Qed.

(** C3, as the code has it.  Take an object whose chain follows the rule
    of the constructors (the chain of a fresh object is empty and does) and
    call [newSlot] for any identifiers.  Every call returns, the chain
    grows by those identifiers, and every [ObjectMap] on it holds index 0
    on the empty-object map and otherwise its parent's index plus one
    modulo 256, [Index] being [std::uint8_t].  From the root to the tip the
    indices are [k mod 256] for [k = 0 .. depth-1]; on chains of at most
    256 maps nothing wraps and they are exactly [0 .. depth-1]. *)
Theorem C3_slot_indices (h : heap) (this m : ptr) (slots : list Value)
    (l : list (Id * Index)) (ids : list Id) :
  h !! this = Some (Object m slots) → chain h m l → index_rule l →
  ∃ h' m' l',
    Object_newSlot_all this ids h = Ret () h' ∧
    h' !! this = Some (Object m' slots) ∧ chain h' m' l' ∧
    l'.*1 = reverse ids ++ l.*1 ∧
    index_rule l' ∧
    indices_from_root l' =
      (λ k, N.of_nat k mod Index_modulus) <$> seq 0 (length l') ∧
    ((length l' ≤ 256)%nat →
       index_rule_exact l' ∧
       indices_from_root l' = N.of_nat <$> seq 0 (length l')).
Proof.
  intros Ho Hc Hcont%index_rule_contiguous.
  destruct (Object_newSlot_all_spec ids _ _ _ _ _ Ho Hc Hcont)
    as (h' & m' & l' & Hrun & Ho' & Hc' & Hcont' & Hids & _).
  exists h', m', l'. split_and!; try done.
  - by apply index_rule_contiguous.
  - by apply indices_from_root_contiguous.
  - intros Hl. split.
    + apply contiguous_small; [done|]. by rewrite Index_modulus_nat.
    + rewrite indices_from_root_contiguous by done.
      apply fmap_seq_small. by rewrite Index_modulus_nat.
Qed.

(** C3 on the fresh object of [heap_object] and three identifiers. *)
Lemma C3_slot_indices_witness :
  heap_object !! the_object =
    Some (Object 2%positive (replicate (N.to_nat MAX_SLOTS) 0%Z)) ∧
  chain heap_object 2%positive [] ∧ index_rule [] ∧
  ∃ h' m' l',
    Object_newSlot_all the_object (idents 3) heap_object = Ret () h' ∧
    h' !! the_object =
      Some (Object m' (replicate (N.to_nat MAX_SLOTS) 0%Z)) ∧
    chain h' m' l' ∧
    l'.*1 = reverse (idents 3) ++ [] ∧
    index_rule l' ∧
    indices_from_root l' =
      (λ k, N.of_nat k mod Index_modulus) <$> seq 0 (length l') ∧
    ((length l' ≤ 256)%nat →
       index_rule_exact l' ∧
       indices_from_root l' = N.of_nat <$> seq 0 (length l')).
Proof.
  assert (heap_object !! the_object =
    Some (Object 2%positive (replicate (N.to_nat MAX_SLOTS) 0%Z))) as H1
    by reflexivity.
  assert (chain heap_object 2%positive []) as H2
    by (apply (chain_empty _ _ 1%positive); reflexivity).
  assert (index_rule []) as H3 by exact I.
  split; [exact H1|]. split; [exact H2|]. split; [exact H3|].
  exact (C3_slot_indices heap_object the_object 2%positive _ [] (idents 3)
           H1 H2 H3).
Defined.

(** C3 as the spec states it fails on chains longer than 256: after 257
    calls of [newSlot] on a fresh object the chain has 257 maps; the tip
    holds index 0 while its parent, an [ObjectMap], holds 255, and the
    indices from the root are not [0 .. 256]. *)
Lemma C3_counterexample :
  Object_newSlot_all the_object (idents 257) heap_object = Ret () heap_257 ∧
  ∃ m slots l,
    heap_257 !! the_object = Some (Object m slots) ∧ chain heap_257 m l ∧
    length l = 257%nat ∧
    take 2 l = [(256, 0); (255, 255)] ∧
    ¬ index_rule_exact l ∧
    indices_from_root l ≠ N.of_nat <$> seq 0 (length l).
Proof.
  split; [vm_compute; reflexivity|].
  destruct (check_object heap_257 the_object) as [[[m slots] l]|] eqn:E;
    [|vm_compute in E; discriminate].
  pose proof (check_object_sound _ _ _ _ _ E) as [Ho Hc _ _ _].
  exists m, slots, l. split; [done|]. split; [done|].
  vm_compute in E. injection E as <- <- <-.
  split_and!; [reflexivity..| |].
  - intros [H _]. vm_compute in H. discriminate.
  - intros H. vm_compute in H. discriminate.
Qed.

(** ** C4: interning *)

Lemma SymbolTable_lookup_known s st id :
  lookupTable_ st !! s = Some id → SymbolTable_lookup s st = (id, st).
Proof. intros H. unfold SymbolTable_lookup. by rewrite H. Qed.

Lemma SymbolTable_lookup_fresh s st :
  lookupTable_ st !! s = None →
  SymbolTable_lookup s st =
    (nextId_ st,
     mkSymbolTable ((nextId_ st + 1) mod Id_modulus)
       (<[s := nextId_ st]> (lookupTable_ st))).
Proof.
  intros H. unfold SymbolTable_lookup, map_insert. rewrite H. simpl.
  by rewrite H.
Qed.

Lemma SymbolTable_lookup_recorded s st :
  lookupTable_ (SymbolTable_lookup s st).2 !! s =
    Some (SymbolTable_lookup s st).1.
Proof.
  destruct (lookupTable_ st !! s) as [id|] eqn:E.
  - by rewrite (SymbolTable_lookup_known _ _ _ E).
  - rewrite (SymbolTable_lookup_fresh _ _ E). simpl. apply lookup_insert_eq.
Qed.

Lemma SymbolTable_lookup_keeps s st s' id :
  lookupTable_ st !! s' = Some id →
  lookupTable_ (SymbolTable_lookup s st).2 !! s' = Some id.
Proof.
  intros H. destruct (lookupTable_ st !! s) as [i|] eqn:E.
  - by rewrite (SymbolTable_lookup_known _ _ _ E).
  - rewrite (SymbolTable_lookup_fresh _ _ E). simpl.
    rewrite lookup_insert_ne; [done|]. congruence.
Qed.

Lemma interned_ok st : interned st → table_ok st.
Proof.
  induction 1 as [|st s _ IH].
  - intros _. split_and!; done.
  - destruct (lookupTable_ st !! s) as [i|] eqn:E.
    { by rewrite (SymbolTable_lookup_known _ _ _ E). }
    rewrite (SymbolTable_lookup_fresh _ _ E). unfold table_ok. simpl.
    rewrite map_size_insert_None by done. intros Hsz.
    destruct IH as (Hnext & Hlt & Hinj); [lia|].
    assert (nextId_ st = N.of_nat (size (lookupTable_ st))) as Hn.
    { rewrite Hnext. apply N.mod_small. lia. }
    split_and!.
    + rewrite Hn. f_equal. lia.
    + intros s' i. rewrite lookup_insert. case_decide.
      * intros [= <-]. lia.
      * intros ?%Hlt. lia.
    + intros s1 s2 i. rewrite !lookup_insert.
      repeat case_decide; simplify_eq; try done.
      * intros [= <-] ?%Hlt. lia.
      * intros ?%Hlt [= <-]. lia.
      * apply Hinj.
Qed.

Lemma intern_first_succ n :
  intern_first (N.succ n) = intern_step (intern_first n).
Proof. unfold intern_first. apply N.iter_succ. Qed.

Lemma intern_first_spec n :
  n ≤ Id_modulus →
  (intern_first n).1 = n ∧
  interned (intern_first n).2 ∧
  nextId_ (intern_first n).2 = n mod Id_modulus ∧
  (∀ j, j < n → lookupTable_ (intern_first n).2 !! name j = Some j) ∧
  (∀ s, (∀ j, j < n → name j ≠ s) →
        lookupTable_ (intern_first n).2 !! s = None).
Proof.
  induction n as [|n IH] using N.peano_ind; intros Hn.
  - split_and!; try done.
    + apply interned_init.
    + intros j Hj. lia.
  - destruct IH as (Hk & Hin & Hnext & Hold & Hnew); [lia|].
    rewrite intern_first_succ. unfold intern_step.
    destruct (intern_first n) as [k st]. simpl in *. subst k.
    assert (lookupTable_ st !! name n = None) as Hfresh.
    { apply Hnew. intros j Hj Heq%(inj _). lia. }
    rewrite (SymbolTable_lookup_fresh _ _ Hfresh) in *.
    assert (nextId_ st = n) as Hid.
    { rewrite Hnext. apply N.mod_small. lia. }
    split_and!.
    + done.
    + pose proof (interned_lookup st (name n) Hin) as Hin'.
      by rewrite (SymbolTable_lookup_fresh _ _ Hfresh) in Hin'.
    + simpl. rewrite Hid. f_equal. lia.
    + intros j Hj. simpl. destruct (decide (j = n)) as [->|Hne].
      * by rewrite lookup_insert_eq, Hid.
      * rewrite lookup_insert_ne; [apply Hold; lia|].
        intros Heq%(inj _). done.
    + intros s Hs. simpl. rewrite lookup_insert_ne; [apply Hnew|].
      * intros j Hj. apply Hs. lia.
      * apply Hs. lia.
Qed.

(** C4, as the code has it.  On every table a program can hold: a second
    [lookup] of a name returns the identifier of the first and leaves the
    table as it is; a name not yet recorded gets the value of the counter
    [nextId_], which then steps by one modulo 2^32 ([Id] being
    [std::uint32_t]), and is recorded with it; and two distinct names get
    two distinct identifiers as long as the table holds no more than 2^32
    names once both are recorded. *)
Theorem C4_interning (st : SymbolTable) (s1 s2 : string) :
  interned st →
  let r1 := SymbolTable_lookup s1 st in
  let r2 := SymbolTable_lookup s2 r1.2 in
  SymbolTable_lookup s1 r1.2 = r1 ∧
  (lookupTable_ st !! s1 = None →
     r1.1 = nextId_ st ∧
     nextId_ r1.2 = (nextId_ st + 1) mod Id_modulus ∧
     lookupTable_ r1.2 = <[s1 := nextId_ st]> (lookupTable_ st)) ∧
  (s1 ≠ s2 → N.of_nat (size (lookupTable_ r2.2)) ≤ Id_modulus →
     r1.1 ≠ r2.1).
Proof.
  intros Hin r1 r2. split_and!.
  - rewrite (SymbolTable_lookup_known s1 r1.2 r1.1); [by destruct r1|].
    apply SymbolTable_lookup_recorded.
  - intros Hfresh. subst r1.
    by rewrite (SymbolTable_lookup_fresh _ _ Hfresh).
  - intros Hne Hsz Heq.
    assert (interned r2.2) as Hin2 by (by do 2 apply interned_lookup).
    destruct (interned_ok _ Hin2 Hsz) as (_ & _ & Hinj).
    apply Hne, (Hinj s1 s2 r1.1).
    + apply SymbolTable_lookup_keeps, SymbolTable_lookup_recorded.
    + rewrite Heq. apply SymbolTable_lookup_recorded.
Qed.

(** C4 on the table that holds ["x"], for ["y"] and ["x"]. *)
Lemma C4_interning_witness :
  interned (SymbolTable_lookup "x" SymbolTable_init).2 ∧
  let st := (SymbolTable_lookup "x" SymbolTable_init).2 in
  let r1 := SymbolTable_lookup "y" st in
  let r2 := SymbolTable_lookup "x" r1.2 in
  SymbolTable_lookup "y" r1.2 = r1 ∧
  (lookupTable_ st !! "y" = None →
     r1.1 = nextId_ st ∧
     nextId_ r1.2 = (nextId_ st + 1) mod Id_modulus ∧
     lookupTable_ r1.2 = <[("y" : string) := nextId_ st]> (lookupTable_ st)) ∧
  (("y" : string) ≠ "x" → N.of_nat (size (lookupTable_ r2.2)) ≤ Id_modulus →
     r1.1 ≠ r2.1).
Proof.
  assert (interned (SymbolTable_lookup "x" SymbolTable_init).2) as H
    by (apply interned_lookup, interned_init).
  split; [exact H|].
  exact (C4_interning (SymbolTable_lookup "x" SymbolTable_init).2 "y" "x" H).
Defined.

Lemma counter_wrap_collision (st : SymbolTable) (s0 s : string) :
  nextId_ st = 0 →
  lookupTable_ st !! s0 = Some 0 →
  lookupTable_ st !! s = None →
  (SymbolTable_lookup s0 st).1 = 0 ∧
  (SymbolTable_lookup s (SymbolTable_lookup s0 st).2).1 = 0.
Proof.
  intros Hnext H0 Hs. rewrite (SymbolTable_lookup_known _ _ _ H0).
  split; [done|]. simpl. by rewrite (SymbolTable_lookup_fresh _ _ Hs).
Qed.

(** C4 as the spec states it fails once the 32-bit counter has gone
    round: after [lookup] of the 2^32 names [name 0 .. name (2^32 - 1)] the
    counter is 0 again, and the new name [name 2^32] gets identifier 0,
    which [name 0] holds. *)
Lemma C4_counterexample :
  interned (intern_first Id_modulus).2 ∧
  name 0 ≠ name Id_modulus ∧
  (SymbolTable_lookup (name 0) (intern_first Id_modulus).2).1 = 0 ∧
  (SymbolTable_lookup (name Id_modulus)
     (SymbolTable_lookup (name 0) (intern_first Id_modulus).2).2).1 = 0.
Proof.
  pose proof (intern_first_spec Id_modulus (N.le_refl _)) as Hspec.
  revert Hspec. generalize (intern_first Id_modulus).2. intros st.
  intros (_ & Hin & Hnext & Hold & Hnew).
  assert (name 0 ≠ name Id_modulus) as Hne.
  { intros Heq%(inj _). vm_compute in Heq. discriminate. }
  split; [exact Hin|]. split; [exact Hne|].
  apply counter_wrap_collision.
  - rewrite Hnext. apply N.Div0.mod_same.
  - apply Hold. reflexivity.
  - apply Hnew. intros j Hj Heq%(inj _). lia.
Qed.

(** ** C5: overwriting a property *)

Lemma Object_set_resolved h this m slots id ix v :
  Object_index this id h = Ret (ix, true) h →
  h !! this = Some (Object m slots) → ix < MAX_SLOTS →
  Object_set this id v h =
    Ret ix (<[this := Object m (<[N.to_nat ix := v]> slots)]> h).
Proof.
  intros Hi Ho Hix. unfold Object_set.
  unfold mbind at 1, M_bind at 1, bind at 1. rewrite Hi. simpl.
  unfold mbind, M_bind, bind. by rewrite (write_slot_eq _ _ _ _ _ _ Ho Hix).
Qed.

Lemma resolve_app_here l1 l2 id ix :
  id ∉ l1.*1 → resolve (l1 ++ (id, ix) :: l2) id = Some ix.
Proof.
  induction l1 as [|[i x] l1 IH]; simpl.
  - intros _. by rewrite decide_True.
  - intros [Hne Hin]%not_elem_of_cons. rewrite decide_False by done.
    by apply IH.
Qed.

(** C5, as the code has it.  Let [id] be on the chain of the object: the
    chain reads [l1 ++ (id, ix) :: l2] from the tip, [ix] being the
    [index_] of the [ObjectMap] that holds [id] and no map nearer to the
    tip holding [id].  When [ix] is below [MAX_SLOTS], [set(id, v1)] and
    then [set(id, v2)] both return [ix]; after each the object points at
    the same map, no cell was allocated and every other cell of the heap is
    as before, the chain is as before, and the slot array is the one from
    before the two calls with [v2] at [ix] and nothing else changed. *)
Theorem C5_overwrite (h : heap) (this m : ptr) (slots : list Value)
    (l1 l2 : list (Id * Index)) (id : Id) (ix : Index) (v1 v2 : Value) :
  h !! this = Some (Object m slots) →
  chain h m (l1 ++ (id, ix) :: l2) → id ∉ l1.*1 →
  ix < MAX_SLOTS →
  ∃ h1 h2,
    Object_set this id v1 h = Ret ix h1 ∧
    Object_set this id v2 h1 = Ret ix h2 ∧
    h1 !! this = Some (Object m (<[N.to_nat ix := v1]> slots)) ∧
    h2 !! this = Some (Object m (<[N.to_nat ix := v2]> slots)) ∧
    dom h1 = dom h ∧ dom h2 = dom h ∧
    (∀ p, p ≠ this → h1 !! p = h !! p ∧ h2 !! p = h !! p) ∧
    chain h2 m (l1 ++ (id, ix) :: l2) ∧
    (∀ j, j ≠ N.to_nat ix →
       <[N.to_nat ix := v2]> slots !! j = slots !! j) ∧
    (length slots = N.to_nat MAX_SLOTS →
       <[N.to_nat ix := v2]> slots !! N.to_nat ix = Some v2).
Proof.
  intros Ho Hc Hl1 Hix.
  pose proof (resolve_app_here l1 l2 id ix Hl1) as Hr.
  exists (<[this := Object m (<[N.to_nat ix := v1]> slots)]> h),
    (<[this := Object m (<[N.to_nat ix := v2]> slots)]> h).
  assert (maps_preserved h
            (<[this := Object m (<[N.to_nat ix := v1]> slots)]> h)) as Hmp1
    by (by eapply maps_preserved_object).
  assert (maps_preserved h
            (<[this := Object m (<[N.to_nat ix := v2]> slots)]> h)) as Hmp2
    by (by eapply maps_preserved_object).
  split_and!.
  - by eapply Object_set_found.
  - erewrite Object_set_found;
      [|apply lookup_insert_eq|by eapply chain_preserved|done|done].
    by rewrite insert_insert_eq, list_insert_insert_eq.
  - apply lookup_insert_eq.
  - apply lookup_insert_eq.
  - apply dom_insert_lookup_L. by eexists.
  - apply dom_insert_lookup_L. by eexists.
  - intros p Hp. by rewrite !lookup_insert_ne.
  - by eapply chain_preserved.
  - intros j Hj. by apply list_lookup_insert_ne.
  - intros Hlen. apply list_lookup_insert_eq. rewrite Hlen. lia.
Qed.

(** C5 on the object of the scenario: ["x"] (0) sits at slot 0 under
    ["y"] (1), and is written twice more. *)
Lemma C5_overwrite_witness :
  let slots := <[1%nat := 20%Z]> (<[0%nat := 10%Z]>
                 (replicate (N.to_nat MAX_SLOTS) 0%Z)) in
  heap_scenario !! the_object = Some (Object 5%positive slots) ∧
  chain heap_scenario 5%positive ([(1, 1)] ++ (0, 0) :: []) ∧
  (0 ∉ [((1 : Id), (1 : Index))].*1) ∧
  0 < MAX_SLOTS ∧
  ∃ h1 h2,
    Object_set the_object 0 11%Z heap_scenario = Ret 0 h1 ∧
    Object_set the_object 0 12%Z h1 = Ret 0 h2 ∧
    h1 !! the_object =
      Some (Object 5%positive (<[N.to_nat 0 := 11%Z]> slots)) ∧
    h2 !! the_object =
      Some (Object 5%positive (<[N.to_nat 0 := 12%Z]> slots)) ∧
    dom h1 = dom heap_scenario ∧ dom h2 = dom heap_scenario ∧
    (∀ p, p ≠ the_object →
       h1 !! p = heap_scenario !! p ∧ h2 !! p = heap_scenario !! p) ∧
    chain h2 5%positive ([(1, 1)] ++ (0, 0) :: []) ∧
    (∀ j, j ≠ N.to_nat 0 →
       <[N.to_nat 0 := 12%Z]> slots !! j = slots !! j) ∧
    (length slots = N.to_nat MAX_SLOTS →
       <[N.to_nat 0 := 12%Z]> slots !! N.to_nat 0 = Some 12%Z).
Proof.
  intros slots.
  assert (heap_scenario !! the_object = Some (Object 5%positive slots)) as H1
    by (vm_compute; reflexivity).
  assert (chain heap_scenario 5%positive ([(1, 1)] ++ (0, 0) :: [])) as H2
    by (apply (chain_list_sound 3); vm_compute; reflexivity).
  assert (0 ∉ [((1 : Id), (1 : Index))].*1) as H3
    by (apply resolve_None; vm_compute; reflexivity).
  assert (0 < MAX_SLOTS) as H4 by reflexivity.
  split; [exact H1|]. split; [exact H2|]. split; [exact H3|].
  split; [exact H4|].
  exact (C5_overwrite heap_scenario the_object 5%positive slots
           [(1, 1)] [] 0 0 11%Z 12%Z H1 H2 H3 H4).
Defined.

(** C5 as the spec states it fails where the slot index is not below
    [MAX_SLOTS]: on the fresh object after 33 calls of [newSlot] the
    identifier 32 is on the chain, at the tip, with index 32; [index] finds
    it there, and [set] for it goes on to store to [slots_[32]], one past
    the array, instead of returning. *)
Lemma C5_counterexample :
  Object_newSlot_all the_object (idents 33) heap_object = Ret () heap_33 ∧
  ∃ m slots l,
    heap_33 !! the_object = Some (Object m slots) ∧
    chain heap_33 m ((32, 32) :: l) ∧
    Object_index the_object 32 heap_33 = Ret (32, true) heap_33 ∧
    Object_set the_object 32 11%Z heap_33 = Undefined.
Proof.
  split; [vm_compute; reflexivity|].
  destruct (check_object heap_33 the_object) as [[[m slots] l]|] eqn:E;
    [|vm_compute in E; discriminate].
  pose proof (check_object_sound _ _ _ _ _ E) as [Ho Hc _ _ _].
  vm_compute in E. injection E as <- <- <-.
  eexists _, _, _. split; [exact Ho|]. split; [exact Hc|].
  split; vm_compute; reflexivity.
Qed.

(** ** C6: a structural clone *)

(** C6, as the code has it.  Copy-constructing [B] from any object [A]
    gives a new cell with [A]'s map pointer and [A]'s slot array and leaves
    every cell there was, [A] included, as it is.  When the map the two
    share heads a chain of fewer than [MAX_SLOTS] maps with the indices of
    the constructors, and [newId] is not on that chain, [set(B, newId, v)]
    returns the depth of the chain as slot index; [A]'s cell (map pointer
    and slots) and [A]'s chain are as before, [B] points at a newly
    allocated [ObjectMap] for [newId] whose parent is the map the two
    shared, so that [B]'s chain is the shared one with that one map on top,
    [B]'s slots are the copied ones with [v] at the returned index, and no
    other cell has changed. *)
Theorem C6_clone (h : heap) (a m : ptr) (slots : list Value) :
  h !! a = Some (Object m slots) →
  new_Object_copy a h =
    Ret (fresh (dom h)) (<[fresh (dom h) := Object m slots]> h) ∧
  a ≠ fresh (dom h) ∧ h !! fresh (dom h) = None ∧
  (∀ p c, h !! p = Some c →
          (<[fresh (dom h) := Object m slots]> h) !! p = Some c) ∧
  (<[fresh (dom h) := Object m slots]> h) !! fresh (dom h) =
    Some (Object m slots) ∧
  ∀ (l : list (Id * Index)) (newId : Id) (v : Value),
    chain h m l → contiguous l → newId ∉ l.*1 →
    (length l < N.to_nat MAX_SLOTS)%nat →
    ∃ m' mm h2,
      Object_set (fresh (dom h)) newId v
          (<[fresh (dom h) := Object m slots]> h) =
        Ret (N.of_nat (length l)) h2 ∧
      h2 !! a = Some (Object m slots) ∧ chain h2 m l ∧
      (<[fresh (dom h) := Object m slots]> h) !! m' = None ∧
      h2 !! fresh (dom h) = Some (Object m' (<[length l := v]> slots)) ∧
      h2 !! m' = Some (ObjectMap mm m newId (N.of_nat (length l))) ∧
      chain h2 m' ((newId, N.of_nat (length l)) :: l) ∧
      (∀ p, p ≠ fresh (dom h) → p ≠ m' →
            h2 !! p = (<[fresh (dom h) := Object m slots]> h) !! p).
Proof.
  intros Ha. pose proof (fresh_ne _ _ _ Ha) as Hab.
  set (b := fresh (dom h)) in *. set (h1 := <[b := Object m slots]> h).
  assert (h1 !! b = Some (Object m slots)) as Hb1 by apply lookup_insert_eq.
  assert (h !! b = None) as Hb by apply not_elem_of_dom, is_fresh.
  assert (maps_preserved h h1) as Hmp by apply maps_preserved_alloc.
  split_and!; try done.
  - unfold new_Object_copy. unfold mbind, M_bind, bind.
    by rewrite (load_Object_eq _ _ _ _ Ha).
  - intros p c Hp. subst h1. rewrite lookup_insert_ne; [done|].
    intros <-. congruence.
  - intros l newId v Hc Hcont Hid Hl.
    assert (chain h1 m l) as Hc1 by (by eapply chain_preserved).
    assert (next_index l = N.of_nat (length l)) as Hn.
    { unfold next_index. apply index_small. bounds_lia. }
    destruct (Object_set_new _ _ _ _ _ _ v Hb1 Hc1 Hcont Hid) as [mm Hset].
    { rewrite Hn. bounds_lia. }
    rewrite Hn, Nat2N.id in Hset.
    assert (h1 !! a = Some (Object m slots)) as Ha1.
    { subst h1. by rewrite lookup_insert_ne. }
    pose proof (fresh_ne _ _ _ Ha1) as Haf.
    pose proof (fresh_ne _ _ _ Hb1) as Hbf.
    exists (fresh (dom h1)), mm. eexists. split; [exact Hset|]. split_and!.
    + by rewrite !lookup_insert_ne.
    + eapply chain_preserved; [|exact Hc1].
      eapply maps_preserved_trans; [apply maps_preserved_alloc|].
      eapply maps_preserved_object. by rewrite lookup_insert_ne.
    + apply not_elem_of_dom, is_fresh.
    + apply lookup_insert_eq.
    + rewrite lookup_insert_ne by done. apply lookup_insert_eq.
    + by eapply chain_extend.
    + intros p Hp Hp'. by rewrite !lookup_insert_ne.
Qed.

(** C6 on the object of the scenario and a third identifier. *)
Lemma C6_clone_witness :
  let slots := <[1%nat := 20%Z]> (<[0%nat := 10%Z]>
                 (replicate (N.to_nat MAX_SLOTS) 0%Z)) in
  let b := fresh (dom heap_scenario) in
  let h1 := <[b := Object 5%positive slots]> heap_scenario in
  let l : list (Id * Index) := [(1, 1); (0, 0)] in
  heap_scenario !! the_object = Some (Object 5%positive slots) ∧
  chain heap_scenario 5%positive l ∧ contiguous l ∧ (2 ∉ l.*1) ∧
  (length l < N.to_nat MAX_SLOTS)%nat ∧
  new_Object_copy the_object heap_scenario = Ret b h1 ∧
  h1 !! b = Some (Object 5%positive slots) ∧
  ∃ m' mm h2,
    Object_set b 2 9%Z h1 = Ret (N.of_nat (length l)) h2 ∧
    h2 !! the_object = Some (Object 5%positive slots) ∧
    chain h2 5%positive l ∧
    h1 !! m' = None ∧
    h2 !! b = Some (Object m' (<[length l := 9%Z]> slots)) ∧
    h2 !! m' = Some (ObjectMap mm 5%positive 2 (N.of_nat (length l))) ∧
    chain h2 m' ((2, N.of_nat (length l)) :: l) ∧
    (∀ p, p ≠ b → p ≠ m' → h2 !! p = h1 !! p).
Proof.
  intros slots b h1 l.
  assert (heap_scenario !! the_object = Some (Object 5%positive slots)) as H0
    by (vm_compute; reflexivity).
  assert (chain heap_scenario 5%positive l) as H1
    by (apply (chain_list_sound 3); vm_compute; reflexivity).
  assert (contiguous l) as H2 by (vm_compute; tauto).
  assert (2 ∉ l.*1) as H3 by (apply resolve_None; vm_compute; reflexivity).
  assert (length l < N.to_nat MAX_SLOTS)%nat as H4 by (vm_compute; lia).
  destruct (C6_clone heap_scenario the_object 5%positive slots H0)
    as (Hcopy & _ & _ & _ & Hb & Hset).
  split_and!; [exact H0|exact H1|exact H2|exact H3|exact H4|exact Hcopy
              |exact Hb|].
  exact (Hset l 2 9%Z H1 H2 H3 H4).
Defined.

(** C6 as the spec states it fails on an object that holds [MAX_SLOTS]
    properties: the copy of the object of [heap_full] is made as for any
    object, but [set] on the copy with a 33rd identifier goes on to store
    to [slots_[32]], one past the array, instead of returning. *)
Lemma C6_counterexample :
  (∃ m slots l,
     object_at heap_full the_object m slots l ∧ length l = 32%nat ∧
     (32 ∉ l.*1) ∧
     heap_full_copy !! fresh (dom heap_full) = Some (Object m slots)) ∧
  new_Object_copy the_object heap_full =
    Ret (fresh (dom heap_full)) heap_full_copy ∧
  Object_index (fresh (dom heap_full)) 32 heap_full_copy =
    Ret (0, false) heap_full_copy ∧
  Object_set (fresh (dom heap_full)) 32 9%Z heap_full_copy = Undefined.
Proof.
  split_and!.
  - destruct (check_object heap_full the_object) as [[[m slots] l]|] eqn:E;
      [|vm_compute in E; discriminate].
    pose proof (check_object_sound _ _ _ _ _ E) as Hat.
    exists m, slots, l. split; [done|].
    vm_compute in E. injection E as <- <- <-. split_and!.
    + reflexivity.
    + apply resolve_None. vm_compute. reflexivity.
    + vm_compute. reflexivity.
  - vm_compute. reflexivity.
  - vm_compute. reflexivity.
  - vm_compute. reflexivity.
Qed.

(** ** C7: maps are never written *)

(** C7.  Over any sequence of [get], [set] and [newSlot] calls on any
    objects, every cell that is a map keeps all its fields: its kind, its
    own map pointer and, for an [ObjectMap], its parent, identifier and
    index.  (The calls only allocate new [ObjectMap]s and write to
    [Object]s; the setters [ObjectMap::id] and [ObjectMap::index] are not
    among them.) *)
Theorem C7_maps_immutable (cs : list call) (h h' : heap) :
  run_calls cs h = Some h' →
  ∀ p c, h !! p = Some c → is_map c = true → h' !! p = Some c.
Proof.
  revert h. induction cs as [|c cs IH]; intros h; simpl.
  - by intros [= <-].
  - destruct (run_call c h) as [h1|] eqn:E; simpl; [|done].
    intros Hrun p c' Hp Hc. eapply IH; [done| |done].
    by eapply run_call_maps.
Qed.

(** C7 on three calls on the fresh object and the empty-object map. *)
Lemma C7_maps_immutable_witness :
  run_calls three_calls heap_object =
    Some (default ∅ (run_calls three_calls heap_object)) ∧
  heap_object !! 2%positive = Some (EmptyObjectMap 1%positive) ∧
  is_map (EmptyObjectMap 1%positive) = true ∧
  default ∅ (run_calls three_calls heap_object) !! 2%positive =
    Some (EmptyObjectMap 1%positive).
Proof.
  assert (run_calls three_calls heap_object =
            Some (default ∅ (run_calls three_calls heap_object))) as H1
    by (vm_compute; reflexivity).
  assert (heap_object !! 2%positive = Some (EmptyObjectMap 1%positive)) as H2
    by reflexivity.
  assert (is_map (EmptyObjectMap 1%positive) = true) as H3 by reflexivity.
  split; [exact H1|]. split; [exact H2|]. split; [exact H3|].
  exact (C7_maps_immutable three_calls heap_object _ H1 2%positive _ H2 H3).
Defined.

(** ** C8: termination *)

Lemma Object_get_no_Timeout this id h :
  Object_index this id h ≠ Timeout → Object_get this id h ≠ Timeout.
Proof.
  intros Hi. unfold Object_get. unfold mbind at 1, M_bind at 1, bind at 1.
  destruct (Object_index this id h) as [[ix b] h1|e1 h1| |]; try done.
  destruct b; [|done]. unfold mbind, M_bind, bind.
  destruct (read_slot this ix h1) eqn:Er; try done.
  by apply read_slot_no_Timeout in Er.
Qed.

Lemma Object_set_no_Timeout this id v h :
  Object_index this id h ≠ Timeout → Object_set this id v h ≠ Timeout.
Proof.
  intros Hi. unfold Object_set. unfold mbind at 1, M_bind at 1, bind at 1.
  destruct (Object_index this id h) as [[ix b] h1|e1 h1| |]; try done.
  destruct b.
  - unfold mbind, M_bind, bind.
    destruct (write_slot this ix v h1) eqn:Ew; try done.
    by apply write_slot_no_Timeout in Ew.
  - unfold mbind at 1, M_bind at 1, bind at 1.
    destruct (Object_newSlot this id h1) as [n h2| | |] eqn:En; try done.
    + unfold mbind, M_bind, bind.
      destruct (write_slot this n v h2) eqn:Ew; try done.
      by apply write_slot_no_Timeout in Ew.
    + by apply Object_newSlot_no_Timeout in En.
Qed.

(** C8, as the code has it.  On an object whose map heads a chain of
    [ObjectMap]s down to an [EmptyObjectMap], of any depth, the loop of
    [index] is over after at most depth + 1 tests of its condition, with
    the entry nearest to the tip or not-found as its result, and none of
    [index], [get], [set] and [newSlot] fails to finish.  The depth itself
    has no bound in the code. *)
Theorem C8_termination (h : heap) (this m : ptr) (slots : list Value)
    (l : list (Id * Index)) (id : Id) (v : Value) :
  h !! this = Some (Object m slots) → chain h m l →
  (∀ fuel, (length l < fuel)%nat →
     index_loop fuel m id h = Ret (resolve_pair l id) h) ∧
  Object_index this id h = Ret (resolve_pair l id) h ∧
  Object_get this id h ≠ Timeout ∧
  Object_set this id v h ≠ Timeout ∧
  Object_newSlot this id h ≠ Timeout.
Proof.
  intros Ho Hc.
  pose proof (Object_index_chain _ _ _ _ _ id Ho Hc) as Hi.
  split_and!.
  - intros fuel Hf. by apply index_loop_chain.
  - done.
  - apply Object_get_no_Timeout. by rewrite Hi.
  - apply Object_set_no_Timeout. by rewrite Hi.
  - apply Object_newSlot_no_Timeout.
Qed.

(** C8 on the object of the scenario. *)
Lemma C8_termination_witness :
  heap_scenario !! the_object =
    Some (Object 5%positive
            (<[1%nat := 20%Z]> (<[0%nat := 10%Z]>
               (replicate (N.to_nat MAX_SLOTS) 0%Z)))) ∧
  chain heap_scenario 5%positive [(1, 1); (0, 0)] ∧
  (∀ fuel, (length [(1, 1); (0, 0)] < fuel)%nat →
     index_loop fuel 5%positive 7 heap_scenario =
       Ret (resolve_pair [(1, 1); (0, 0)] 7) heap_scenario) ∧
  Object_index the_object 7 heap_scenario =
    Ret (resolve_pair [(1, 1); (0, 0)] 7) heap_scenario ∧
  Object_get the_object 7 heap_scenario ≠ Timeout ∧
  Object_set the_object 7 3%Z heap_scenario ≠ Timeout ∧
  Object_newSlot the_object 7 heap_scenario ≠ Timeout.
Proof.
  assert (heap_scenario !! the_object =
    Some (Object 5%positive
            (<[1%nat := 20%Z]> (<[0%nat := 10%Z]>
               (replicate (N.to_nat MAX_SLOTS) 0%Z))))) as H1
    by (vm_compute; reflexivity).
  assert (chain heap_scenario 5%positive [(1, 1); (0, 0)]) as H2
    by (apply (chain_list_sound 3); vm_compute; reflexivity).
  split; [exact H1|]. split; [exact H2|].
  exact (C8_termination heap_scenario the_object 5%positive _ _ 7 3%Z H1 H2).
Defined.

(** C8 as the spec states it fails on the bound: 33 calls of [newSlot] on
    a fresh object all return and leave a chain of depth 33, more than
    [MAX_SLOTS]; the walk for an identifier that is not on it is not over
    after 33 tests and is over after 34. *)
Lemma C8_counterexample :
  Object_newSlot_all the_object (idents 33) heap_object = Ret () heap_33 ∧
  ∃ m slots l,
    heap_33 !! the_object = Some (Object m slots) ∧ chain heap_33 m l ∧
    length l = 33%nat ∧ (N.to_nat MAX_SLOTS < length l)%nat ∧
    index_loop 33 m 99 heap_33 = Timeout ∧
    index_loop 34 m 99 heap_33 = Ret (0, false) heap_33.
Proof.
  split; [vm_compute; reflexivity|].
  destruct (check_object heap_33 the_object) as [[[m slots] l]|] eqn:E;
    [|vm_compute in E; discriminate].
  pose proof (check_object_sound _ _ _ _ _ E) as [Ho Hc _ _ _].
  exists m, slots, l. split; [done|]. split; [done|].
  vm_compute in E. injection E as <- <- <-.
  split_and!.
  - reflexivity.
  - vm_compute. lia.
  - vm_compute. reflexivity.
  - vm_compute. reflexivity.
Qed.

(** ** C9: the map-kind error of [newSlot] *)

(** C9.  [newSlot] throws exactly when the map of the object is of a kind
    other than [EMPTY_OBJECT_MAP] and [OBJECT_MAP]; what it throws is the
    [runtime_error] of its [default] branch, and the heap, with it the map
    pointer and the slots of the object, is as before the call. *)
Theorem C9_invalid_kind (this : ptr) (id : Id) (h : heap) :
  ((∃ e h', Object_newSlot this id h = Throw e h') ↔
   (∃ m slots c k,
      h !! this = Some (Object m slots) ∧ h !! m = Some c ∧
      Map_kind c = Some k ∧ k ≠ EMPTY_OBJECT_MAP ∧ k ≠ OBJECT_MAP)) ∧
  (∀ e h', Object_newSlot this id h = Throw e h' →
     e = InvalidShapeKind ∧ h' = h).
Proof.
  split; [split|].
  - intros (e & h' & (_ & _ & m & slots & c & Ho & Hm & Hk)%Object_newSlot_Throw).
    by exists m, slots, c, MAP_MAP.
  - intros (m & slots & c & k & Ho & Hm & Hk & Hk1 & Hk2).
    exists InvalidShapeKind, h. apply Object_newSlot_Throw.
    split_and!; try done. exists m, slots, c. split_and!; try done.
    by destruct k.
  - intros e h' (-> & -> & _)%Object_newSlot_Throw. done.
Qed.

(** C9 on an object whose map is the map of maps. *)
Lemma C9_invalid_kind_witness :
  Object_newSlot the_object 0 heap_mismatched =
    Throw InvalidShapeKind heap_mismatched.
Proof.
  destruct (C9_invalid_kind the_object 0 heap_mismatched) as [[_ Hthrow] Hsame].
  destruct Hthrow as (e & h' & H).
  - exists 1%positive, (replicate (N.to_nat MAX_SLOTS) 0%Z),
      (MapMap 1%positive), MAP_MAP.
    split_and!; [reflexivity..|discriminate|discriminate].
  - destruct (Hsame e h' H) as [He Hh]. rewrite He, Hh in H. exact H.
Defined.

(** ** C10: [get] is read-only *)

(** C10.  [get], like the [index] it starts with, hands back the heap it
    was given, cell for cell (so the slots and the map pointer of the
    object, and no new cell), whether the identifier is found or not, and
    it throws nothing; on an object in the state the constructors and [set]
    leave it in, with at most [MAX_SLOTS] properties, it does return. *)
Theorem C10_get_read_only (this : ptr) (id : Id) (h : heap) :
  (∀ r h', Object_index this id h = Ret r h' → h' = h) ∧
  (∀ r h', Object_get this id h = Ret r h' → h' = h) ∧
  (∀ e h', Object_get this id h ≠ Throw e h') ∧
  (∀ m slots l,
     object_at h this m slots l → (length l ≤ N.to_nat MAX_SLOTS)%nat →
     ∃ r, Object_get this id h = Ret r h).
Proof.
  split_and!.
  - apply Object_index_heap.
  - apply Object_get_Ret.
  - apply Object_get_no_Throw.
  - intros m slots l [Ho Hc Hcont Hnd Hlen] Hl.
    destruct (resolve l id) as [ix|] eqn:Hr.
    + assert (ix < MAX_SLOTS) as Hix.
      { eapply resolve_lt in Hr; [|done|]; bounds_lia. }
      destruct (lookup_lt_is_Some_2 slots (N.to_nat ix)) as [v Hv];
        [bounds_lia|].
      exists (v, true). by eapply Object_get_found.
    + exists (0%Z, false). eapply Object_get_absent; [done..|].
      by apply resolve_None.
Qed.

(** C10 on the object of the scenario, for ["x"] (present) and for an
    identifier that is absent. *)
Lemma C10_get_read_only_witness :
  ∃ m slots l,
    object_at heap_scenario the_object m slots l ∧
    (length l ≤ N.to_nat MAX_SLOTS)%nat ∧
    (∃ r, Object_get the_object 0 heap_scenario = Ret r heap_scenario) ∧
    (∃ r, Object_get the_object 2 heap_scenario = Ret r heap_scenario).
Proof.
  destruct (check_object heap_scenario the_object) as [[[m slots] l]|] eqn:E;
    [|vm_compute in E; discriminate].
  pose proof (check_object_sound _ _ _ _ _ E) as Hat.
  assert (length l ≤ N.to_nat MAX_SLOTS)%nat as Hl.
  { vm_compute in E. injection E as <- <- <-. vm_compute. lia. }
  exists m, slots, l. split; [exact Hat|]. split; [exact Hl|]. split.
  - destruct (C10_get_read_only the_object 0 heap_scenario)
      as (_ & _ & _ & Hret).
    exact (Hret m slots l Hat Hl).
  - destruct (C10_get_read_only the_object 2 heap_scenario)
      as (_ & _ & _ & Hret).
    exact (Hret m slots l Hat Hl).
Defined.

(** * Further properties of the code *)

(** ** Walks over a heap that grew *)

Lemma index_loop_preserved fuel fuel' m id h h' r :
  maps_preserved h h' → (fuel ≤ fuel')%nat →
  index_loop fuel m id h = Ret r h →
  index_loop fuel' m id h' = Ret r h'.
Proof.
  intros Hmp. revert fuel' m.
  induction fuel as [|fuel IH]; intros [|fuel'] m Hf; simpl; try done; [lia|].
  munfold. destruct (h !! m) as [c|] eqn:Hm; [|done].
  destruct c as [mm|mm|mm p i ix|]; try done.
  - rewrite (Hmp _ _ Hm eq_refl). by intros [= <-].
  - rewrite (Hmp _ _ Hm eq_refl). case_decide; [by intros [= <-]|].
    apply IH. lia.
Qed.

Lemma Object_get_resolved h this m slots id ix v :
  Object_index this id h = Ret (ix, true) h →
  h !! this = Some (Object m slots) → ix < MAX_SLOTS →
  slots !! N.to_nat ix = Some v →
  Object_get this id h = Ret (v, true) h.
Proof.
  intros Hi Ho Hix Hv. unfold Object_get.
  unfold mbind at 1, M_bind at 1, bind at 1. rewrite Hi. simpl.
  unfold mbind, M_bind, bind.
  by rewrite (read_slot_eq _ _ _ _ _ _ Ho Hix Hv).
Qed.

Lemma Object_index_tip h this m slots mm parent id ix :
  h !! this = Some (Object m slots) →
  h !! m = Some (ObjectMap mm parent id ix) →
  Object_index this id h = Ret (ix, true) h.
Proof.
  intros Ho Hm. unfold Object_index. unfold mbind, M_bind, bind.
  rewrite (load_Object_eq _ _ _ _ Ho). unfold walk_fuel. simpl. munfold.
  rewrite Hm. by rewrite decide_True.
Qed.

(** ** [set], then [index] and [get] *)

(** X1.  Whenever [set(id, value)] returns, on any heap and for any object
    with a full slot array, the index it returns is the one [index(id)]
    finds afterwards, and [get(id)] reads [value] back. *)
Theorem X1_set_then_get (h h' : heap) (this m : ptr) (slots : list Value)
    (id : Id) (v : Value) (i : Index) :
  h !! this = Some (Object m slots) →
  length slots = N.to_nat MAX_SLOTS →
  Object_set this id v h = Ret i h' →
  Object_index this id h' = Ret (i, true) h' ∧
  Object_get this id h' = Ret (v, true) h'.
Proof.
  intros Ho Hlen Hset.
  destruct (Object_set_Ret _ _ _ _ _ _ Hset)
    as (m0 & s0 & Ho' & Hlt & [[Hi ->]|[_ (c & Hm & _ & ->)]]);
    rewrite Ho in Ho'; injection Ho' as <- <-.
  - pose proof (Object_index_frame _ _ _ _ _ _
                  (<[N.to_nat i := v]> slots) Hi Ho) as Hi'.
    split; [done|].
    eapply Object_get_resolved; [done|apply lookup_insert_eq|done|].
    apply list_lookup_insert_eq. bounds_lia.
  - pose proof (fresh_ne _ _ _ Ho) as Hne.
    assert (Object_index this id
              (<[this := Object (fresh (dom h)) (<[N.to_nat i := v]> slots)]>
                 (<[fresh (dom h) := ObjectMap (Cell_map c) m id i]> h)) =
            Ret (i, true)
              (<[this := Object (fresh (dom h)) (<[N.to_nat i := v]> slots)]>
                 (<[fresh (dom h) := ObjectMap (Cell_map c) m id i]> h)))
      as Hi'.
    { eapply Object_index_tip; [apply lookup_insert_eq|].
      rewrite lookup_insert_ne by done. apply lookup_insert_eq. }
    split; [done|].
    eapply Object_get_resolved; [done|apply lookup_insert_eq|done|].
    apply list_lookup_insert_eq. bounds_lia.
Qed.

(** X1 on the object of the scenario and a new identifier. *)
Lemma X1_set_then_get_witness :
  heap_scenario !! the_object =
    Some (Object 5%positive
            (<[1%nat := 20%Z]> (<[0%nat := 10%Z]>
               (replicate (N.to_nat MAX_SLOTS) 0%Z)))) ∧
  length (<[1%nat := 20%Z]> (<[0%nat := 10%Z]>
            (replicate (N.to_nat MAX_SLOTS) 0%Z))) = N.to_nat MAX_SLOTS ∧
  Object_set the_object 7 70%Z heap_scenario =
    Ret 2 (heap_of (Object_set the_object 7 70%Z heap_scenario)) ∧
  Object_index the_object 7
      (heap_of (Object_set the_object 7 70%Z heap_scenario)) =
    Ret (2, true) (heap_of (Object_set the_object 7 70%Z heap_scenario)) ∧
  Object_get the_object 7
      (heap_of (Object_set the_object 7 70%Z heap_scenario)) =
    Ret (70%Z, true) (heap_of (Object_set the_object 7 70%Z heap_scenario)).
Proof.
  assert (heap_scenario !! the_object =
    Some (Object 5%positive
            (<[1%nat := 20%Z]> (<[0%nat := 10%Z]>
               (replicate (N.to_nat MAX_SLOTS) 0%Z))))) as H1
    by (vm_compute; reflexivity).
  assert (length (<[1%nat := 20%Z]> (<[0%nat := 10%Z]>
            (replicate (N.to_nat MAX_SLOTS) 0%Z))) = N.to_nat MAX_SLOTS) as H2
    by reflexivity.
  assert (Object_set the_object 7 70%Z heap_scenario =
    Ret 2 (heap_of (Object_set the_object 7 70%Z heap_scenario))) as H3
    by (vm_compute; reflexivity).
  split; [exact H1|]. split; [exact H2|]. split; [exact H3|].
  exact (X1_set_then_get heap_scenario _ the_object 5%positive _ 7 70%Z 2
           H1 H2 H3).
Defined.

(** ** What [set] and [newSlot] never do *)

(** X2.  [set] never throws: when [index] has not found the identifier it
    has ended its walk on an [EmptyObjectMap], so the map of the object is
    an [EmptyObjectMap] or an [ObjectMap] and [newSlot] does not reach its
    [default] branch. *)
Theorem X2_set_never_throws (this : ptr) (id : Id) (v : Value) (h : heap)
    (e : exn) (h' : heap) :
  Object_set this id v h ≠ Throw e h'.
Proof.
  unfold Object_set. unfold mbind at 1, M_bind at 1, bind at 1.
  destruct (Object_index this id h) as [[ix b] h1|e1 h1| |] eqn:E; try done.
  - pose proof E as (-> & m & slots & Ho & Hl)%Object_index_Ret. destruct b.
    + unfold mbind, M_bind, bind.
      destruct (write_slot this ix v h) as [u h2| | |] eqn:Ew; try done.
      by apply write_slot_no_Throw in Ew.
    + unfold mbind at 1, M_bind at 1, bind at 1.
      destruct (Object_newSlot this id h) as [n h2|e2 h2| |] eqn:En; try done.
      * unfold mbind, M_bind, bind.
        destruct (write_slot _ _ _ _) as [u h3| | |] eqn:Ew; try done.
        by apply write_slot_no_Throw in Ew.
      * apply Object_newSlot_Throw in En
          as (_ & _ & m' & s' & c & Ho' & Hm & Hk).
        rewrite Ho in Ho'. injection Ho' as <- <-.
        revert Hl. unfold walk_fuel. simpl. munfold. rewrite Hm.
        by destruct c.
  - by apply Object_index_no_throw in E.
Qed.

(** X3.  [newSlot] does not look for the identifier first: whenever it
    returns, on any heap, also for an identifier the chain already holds,
    [index] finds the identifier at the new map afterwards, with the index
    [newSlot] returned. *)
Theorem X3_newSlot_shadows (this : ptr) (id : Id) (h h' : heap) (n : N) :
  Object_newSlot this id h = Ret n h' →
  Object_index this id h' = Ret (n, true) h'.
Proof.
  intros (m & slots & c & Ho & Hm & _ & ->)%Object_newSlot_Ret.
  pose proof (fresh_ne _ _ _ Ho) as Hne.
  eapply Object_index_tip; [apply lookup_insert_eq|].
  rewrite lookup_insert_ne by done. apply lookup_insert_eq.
Qed.

(** X3 on the object of the scenario and ["x"] (0), which it holds at
    slot 0: after [newSlot(0)], [index(0)] answers slot 2. *)
Lemma X3_newSlot_shadows_witness :
  Object_index the_object 0 heap_scenario = Ret (0, true) heap_scenario ∧
  Object_newSlot the_object 0 heap_scenario =
    Ret 2 (heap_of (Object_newSlot the_object 0 heap_scenario)) ∧
  Object_index the_object 0
      (heap_of (Object_newSlot the_object 0 heap_scenario)) =
    Ret (2, true) (heap_of (Object_newSlot the_object 0 heap_scenario)).
Proof.
  assert (Object_newSlot the_object 0 heap_scenario =
    Ret 2 (heap_of (Object_newSlot the_object 0 heap_scenario))) as H1
    by (vm_compute; reflexivity).
  split; [vm_compute; reflexivity|]. split; [exact H1|].
  exact (X3_newSlot_shadows the_object 0 heap_scenario _ 2 H1).
Defined.

(** ** What a call leaves alone *)

Lemma run_call_shape c h h' :
  run_call c h = Some h' →
  h' = h ∨
  ∃ m slots cell, h !! call_this c = Some (Object m slots) ∧
    is_map cell = false ∧
    (h' = <[call_this c := cell]> h ∨
     ∃ om, is_map om = true ∧
       h' = <[call_this c := cell]> (<[fresh (dom h) := om]> h)).
Proof.
  destruct c as [this id|this id v|this id]; simpl.
  - destruct (Object_get this id h) as [r h1|e h1| |] eqn:E; simpl; try done.
    + intros [= <-]. apply Object_get_Ret in E as ->. by left.
    + by apply Object_get_no_Throw in E.
  - destruct (Object_set this id v h) as [r h1|e h1| |] eqn:E; simpl; try done.
    + intros [= <-].
      destruct (Object_set_Ret _ _ _ _ _ _ E)
        as (m & slots & Ho & _ & [[_ ->]|[_ (c & _ & _ & ->)]]).
      * right. exists m, slots, (Object m (<[N.to_nat r := v]> slots)).
        split_and!; [done|reflexivity|by left].
      * right.
        exists m, slots,
          (Object (fresh (dom h)) (<[N.to_nat r := v]> slots)).
        split_and!; [done|reflexivity|].
        right. eexists. split; [|reflexivity]. reflexivity.
    + intros [= <-]. apply Object_set_Throw in E as ->. by left.
  - destruct (Object_newSlot this id h) as [r h1|e h1| |] eqn:E; simpl;
      try done.
    + intros [= <-].
      apply Object_newSlot_Ret in E as (m & slots & c & Ho & _ & _ & ->).
      right. exists m, slots, (Object (fresh (dom h)) slots).
      split_and!; [done|reflexivity|].
      right. eexists. split; [|reflexivity]. reflexivity.
    + intros [= <-]. apply Object_newSlot_Throw in E as (_ & -> & _).
      by left.
Qed.

Lemma run_call_keeps (c : call) (h h' : heap) :
  run_call c h = Some h' →
  (∀ p cell, p ≠ call_this c → h !! p = Some cell → h' !! p = Some cell) ∧
  (size h ≤ size h')%nat.
Proof.
  intros [->|(m & slots & cell & Ho & _ & [->|(om & _ & ->)])]%run_call_shape.
  - done.
  - split.
    + intros p c' Hp Hc. by rewrite lookup_insert_ne.
    + rewrite map_size_insert_Some by (by eexists). lia.
  - pose proof (fresh_ne _ _ _ Ho) as Hne. split.
    + intros p c' Hp Hc. rewrite lookup_insert_ne by done.
      rewrite lookup_insert_ne; [done|]. by eapply not_eq_sym, fresh_ne.
    + rewrite map_size_insert_Some.
      * rewrite map_size_insert_None; [lia|].
        apply not_elem_of_dom, is_fresh.
      * rewrite lookup_insert_ne by done. by eexists.
Qed.

(** X4.  A call of [get], [set] or [newSlot] that returns or throws leaves
    every cell other than the object it was made on as it was (maps and
    other objects alike), frees nothing, and allocates at most one cell. *)
Theorem X4_call_frame (c : call) (h h' : heap) :
  run_call c h = Some h' →
  (∀ p cell, p ≠ call_this c → h !! p = Some cell → h' !! p = Some cell) ∧
  dom h ⊆ dom h' ∧
  (size h' ≤ S (size h))%nat.
Proof.
  intros [->|(m & slots & cell & Ho & _ & [->|(om & _ & ->)])]%run_call_shape.
  - split_and!; [done|done|lia].
  - split_and!.
    + intros p c' Hp Hc. by rewrite lookup_insert_ne.
    + rewrite dom_insert_L. set_solver.
    + rewrite map_size_insert_Some by (by eexists). lia.
  - pose proof (fresh_ne _ _ _ Ho) as Hne. split_and!.
    + intros p c' Hp Hc. rewrite lookup_insert_ne by done.
      rewrite lookup_insert_ne; [done|]. by eapply not_eq_sym, fresh_ne.
    + rewrite !dom_insert_L. set_solver.
    + rewrite map_size_insert_Some.
      * rewrite map_size_insert_None; [lia|].
        apply not_elem_of_dom, is_fresh.
      * rewrite lookup_insert_ne by done. by eexists.
Qed.

(** X4 on a [set] that adds a property to the object of the scenario:
    the copy made of it before is left as it was. *)
Lemma X4_call_frame_witness :
  let c := call_set the_object 7 70%Z in
  let h' := default ∅ (run_call c heap_copy) in
  run_call c heap_copy = Some h' ∧
  (∀ p cell, p ≠ call_this c → heap_copy !! p = Some cell →
             h' !! p = Some cell) ∧
  dom heap_copy ⊆ dom h' ∧
  (size h' ≤ S (size heap_copy))%nat.
Proof.
  intros c h'.
  assert (run_call c heap_copy = Some h') as H1 by (vm_compute; reflexivity).
  split; [exact H1|]. exact (X4_call_frame c heap_copy h' H1).
Defined.

Lemma Object_get_preserved (b : ptr) (id : Id) (h h' : heap) r :
  maps_preserved h h' → (size h ≤ size h')%nat →
  (∀ cell, h !! b = Some cell → h' !! b = Some cell) →
  Object_get b id h = Ret r h → Object_get b id h' = Ret r h'.
Proof.
  intros Hmp Hsz Hb. unfold Object_get.
  unfold mbind at 1, M_bind at 1, bind at 1.
  destruct (Object_index b id h) as [[ix f] h1|e h1| |] eqn:E; try done.
  pose proof E as (-> & m & slots & Ho & Hl)%Object_index_Ret.
  assert (Object_index b id h' = Ret (ix, f) h') as Hi'.
  { unfold Object_index. unfold mbind, M_bind, bind.
    rewrite (load_Object_eq _ _ _ _ (Hb _ Ho)).
    eapply index_loop_preserved; [done| |done]. unfold walk_fuel. lia. }
  intros Hget. unfold mbind at 1, M_bind at 1, bind at 1. rewrite Hi'.
  revert Hget. destruct f; [|by intros [= <-]]. unfold mbind, M_bind, bind.
  unfold read_slot. unfold mbind, M_bind, bind.
  rewrite (load_Object_eq _ _ _ _ Ho), (load_Object_eq _ _ _ _ (Hb _ Ho)).
  case_decide; [|done]. destruct (slots !! N.to_nat ix); [|done].
  by intros [= <-].
Qed.

(** X5.  Objects do not see each other's writes, shared maps or not:
    whatever [get] returns on an object [b], it still returns after any
    call of [get], [set] or [newSlot] on another object. *)
Theorem X5_objects_isolated (c : call) (b : ptr) (id : Id) (h h' : heap)
    (r : Value * bool) :
  run_call c h = Some h' → b ≠ call_this c →
  Object_get b id h = Ret r h →
  Object_get b id h' = Ret r h'.
Proof.
  intros Hrun Hb Hget.
  destruct (run_call_keeps _ _ _ Hrun) as (Hframe & Hsize).
  eapply Object_get_preserved; [| | |done].
  - by eapply run_call_maps.
  - done.
  - intros cell. by apply Hframe.
Qed.

(** X5 on the copy of the scenario's object: the original overwrites
    ["x"], the copy still reads 10. *)
Lemma X5_objects_isolated_witness :
  let c := call_set the_object 0 99%Z in
  let h' := default ∅ (run_call c heap_copy) in
  run_call c heap_copy = Some h' ∧ the_copy ≠ call_this c ∧
  Object_get the_copy 0 heap_copy = Ret (10%Z, true) heap_copy ∧
  Object_get the_copy 0 h' = Ret (10%Z, true) h' ∧
  Object_get the_object 0 h' = Ret (99%Z, true) h'.
Proof.
  intros c h'.
  assert (run_call c heap_copy = Some h') as H1 by (vm_compute; reflexivity).
  assert (the_copy ≠ call_this c) as H2 by discriminate.
  assert (Object_get the_copy 0 heap_copy = Ret (10%Z, true) heap_copy) as H3
    by (vm_compute; reflexivity).
  split; [exact H1|]. split; [exact H2|]. split; [exact H3|].
  split; [|vm_compute; reflexivity].
  exact (X5_objects_isolated c the_copy 0 heap_copy h' _ H1 H2 H3).
Defined.

(** ** [set] on a well-formed object *)

Lemma Object_get_chain_inv h this m slots l id r h' :
  h !! this = Some (Object m slots) → chain h m l →
  Object_get this id h = Ret r h' →
  (resolve l id = None ∧ r = (0%Z, false)) ∨
  (∃ ix v, resolve l id = Some ix ∧ ix < MAX_SLOTS ∧
           slots !! N.to_nat ix = Some v ∧ r = (v, true)).
Proof.
  intros Ho Hc. unfold Object_get.
  unfold mbind at 1, M_bind at 1, bind at 1.
  rewrite (Object_index_chain _ _ _ _ _ _ Ho Hc). unfold resolve_pair.
  destruct (resolve l id) as [ix|]; simpl.
  - unfold mbind, M_bind, bind. unfold read_slot. unfold mbind, M_bind, bind.
    rewrite (load_Object_eq _ _ _ _ Ho). case_decide; [|done].
    destruct (slots !! N.to_nat ix) as [v|] eqn:Hv; [|done].
    intros [= <- <-]. right. by exists ix, v.
  - intros [= <- <-]. by left.
Qed.

Lemma Object_set_chain h this m slots l id v i h' :
  object_at h this m slots l →
  Object_set this id v h = Ret i h' →
  i < MAX_SLOTS ∧
  ((resolve l id = Some i ∧
    h' = <[this := Object m (<[N.to_nat i := v]> slots)]> h ∧
    object_at h' this m (<[N.to_nat i := v]> slots) l) ∨
   ((id ∉ l.*1) ∧ i = next_index l ∧
    object_at h' this (fresh (dom h)) (<[N.to_nat i := v]> slots)
      ((id, i) :: l))).
Proof.
  intros Hat Hset. pose proof Hat as [Ho Hc Hcont _ _].
  destruct (Object_set_Ret _ _ _ _ _ _ Hset)
    as (m0 & s0 & Ho' & Hlt & [[Hi ->]|[Hi (c & _ & Hnew & ->)]]);
    rewrite Ho in Ho'; injection Ho' as <- <-; (split; [done|]);
    rewrite (Object_index_chain _ _ _ _ _ id Ho Hc) in Hi;
    unfold resolve_pair in Hi.
  - left. destruct (resolve l id) eqn:Hr; [|done]. injection Hi as ->.
    split_and!; [done..|]. by apply object_at_write.
  - right. destruct (resolve l id) eqn:Hr; [done|]. apply resolve_None in Hr.
    destruct (Object_newSlot_chain _ _ _ _ _ id Ho Hc Hcont) as [mm Hnew'].
    rewrite Hnew' in Hnew. injection Hnew as <- _.
    split_and!; [done..|]. by apply object_at_extend.
Qed.

(** X6.  [set] keeps an object well formed: when it returns on a
    well-formed object, the chain is the old one if it held the identifier
    and else the old one with one new [ObjectMap] for the identifier on top;
    in both cases the identifiers on it are distinct, the indices are those
    of the constructors, and the slot array is the old one with the value
    at the returned index. *)
Theorem X6_set_keeps_well_formed (h h' : heap) (this m : ptr)
    (slots : list Value) (l : list (Id * Index)) (id : Id) (v : Value)
    (i : Index) :
  object_at h this m slots l →
  Object_set this id v h = Ret i h' →
  ∃ m' l',
    object_at h' this m' (<[N.to_nat i := v]> slots) l' ∧
    ((id ∈ l.*1 ∧ m' = m ∧ l' = l) ∨
     ((id ∉ l.*1) ∧ l' = (id, next_index l) :: l)).
Proof.
  intros Hat Hset.
  destruct (Object_set_chain _ _ _ _ _ _ _ _ _ Hat Hset)
    as (_ & [(Hr & _ & Hat')|(Hid & -> & Hat')]).
  - exists m, l. split; [done|]. left.
    split; [by eapply resolve_Some_elem|done].
  - exists (fresh (dom h)), ((id, next_index l) :: l). split; [done|].
    by right.
Qed.

(** X6 on the object of the scenario and a new identifier. *)
Lemma X6_set_keeps_well_formed_witness :
  ∃ m slots l,
    object_at heap_scenario the_object m slots l ∧
    Object_set the_object 7 70%Z heap_scenario =
      Ret 2 (heap_of (Object_set the_object 7 70%Z heap_scenario)) ∧
    ∃ m' l',
      object_at (heap_of (Object_set the_object 7 70%Z heap_scenario))
        the_object m' (<[N.to_nat 2 := 70%Z]> slots) l' ∧
      ((7 ∈ l.*1 ∧ m' = m ∧ l' = l) ∨
       ((7 ∉ l.*1) ∧ l' = (7, next_index l) :: l)).
Proof.
  destruct (check_object heap_scenario the_object) as [[[m slots] l]|] eqn:E;
    [|vm_compute in E; discriminate].
  pose proof (check_object_sound _ _ _ _ _ E) as Hat.
  assert (Object_set the_object 7 70%Z heap_scenario =
    Ret 2 (heap_of (Object_set the_object 7 70%Z heap_scenario))) as H2
    by (vm_compute; reflexivity).
  exists m, slots, l. split; [exact Hat|]. split; [exact H2|].
  exact (X6_set_keeps_well_formed heap_scenario _ the_object m slots l
           7 70%Z 2 Hat H2).
Defined.

(** X7.  On a well-formed object with fewer than 256 maps on its chain,
    [set(id, v)] changes what [get] returns for no other identifier. *)
Theorem X7_set_keeps_other_properties (h h' : heap) (this m : ptr)
    (slots : list Value) (l : list (Id * Index)) (id id' : Id) (v : Value)
    (i : Index) (r : Value * bool) :
  object_at h this m slots l →
  (length l < N.to_nat Index_modulus)%nat →
  Object_set this id v h = Ret i h' →
  id' ≠ id →
  Object_get this id' h = Ret r h →
  Object_get this id' h' = Ret r h'.
Proof.
  intros Hat Hl Hset Hne Hget. pose proof Hat as [Ho Hc Hcont _ Hlen].
  destruct (Object_get_chain_inv _ _ _ _ _ _ _ _ Ho Hc Hget)
    as [[Hr' ->]|(ix' & v' & Hr' & Hix' & Hv' & ->)];
    destruct (Object_set_chain _ _ _ _ _ _ _ _ _ Hat Hset)
      as (Hi & [(Hr & _ & [Ho2 Hc2 _ _ _])|(Hid & -> & [Ho2 Hc2 _ _ _])]).
  - eapply Object_get_absent; [done..|]. by apply resolve_None.
  - eapply Object_get_absent; [done..|]. apply resolve_None. simpl.
    by rewrite decide_False by done.
  - eapply (Object_get_found _ _ _ _ _ _ ix' v'); [done| |done|done|].
    + exact Hc2.
    + rewrite list_lookup_insert_ne; [done|]. intros Heq%(inj N.to_nat).
      subst ix'. apply Hne. eapply resolve_inj; [done|lia|done..].
  - eapply (Object_get_found _ _ _ _ _ _ ix' v'); [done| | |done|].
    + exact Hc2.
    + simpl. by rewrite decide_False by done.
    + rewrite list_lookup_insert_ne; [done|]. intros Heq%(inj N.to_nat).
      eapply resolve_lt in Hr'; [|done|lia].
      unfold next_index in Heq. rewrite index_small in Heq by lia. lia.
Qed.

(** X7 on the object of the scenario: ["x"] is overwritten, ["y"] still
    reads 20. *)
Lemma X7_set_keeps_other_properties_witness :
  ∃ m slots l,
    object_at heap_scenario the_object m slots l ∧
    (length l < N.to_nat Index_modulus)%nat ∧
    Object_set the_object 0 99%Z heap_scenario =
      Ret 0 (heap_of (Object_set the_object 0 99%Z heap_scenario)) ∧
    (1 : Id) ≠ 0 ∧
    Object_get the_object 1 heap_scenario = Ret (20%Z, true) heap_scenario ∧
    Object_get the_object 1
        (heap_of (Object_set the_object 0 99%Z heap_scenario)) =
      Ret (20%Z, true) (heap_of (Object_set the_object 0 99%Z heap_scenario)).
Proof.
  destruct (check_object heap_scenario the_object) as [[[m slots] l]|] eqn:E;
    [|vm_compute in E; discriminate].
  pose proof (check_object_sound _ _ _ _ _ E) as Hat.
  assert (length l < N.to_nat Index_modulus)%nat as Hl.
  { vm_compute in E. injection E as <- <- <-. vm_compute. lia. }
  assert (Object_set the_object 0 99%Z heap_scenario =
    Ret 0 (heap_of (Object_set the_object 0 99%Z heap_scenario))) as H2
    by (vm_compute; reflexivity).
  assert ((1 : Id) ≠ 0) as H3 by discriminate.
  assert (Object_get the_object 1 heap_scenario =
            Ret (20%Z, true) heap_scenario) as H4 by (vm_compute; reflexivity).
  exists m, slots, l. split_and!; [exact Hat|exact Hl|exact H2|exact H3|exact H4|].
  exact (X7_set_keeps_other_properties heap_scenario _ the_object m slots l
           0 1 99%Z 0 _ Hat Hl H2 H3 H4).
Defined.

(** ** Past the slot array *)

(** X8.  There is no capacity check.  On a well-formed object whose chain
    holds [MAX_SLOTS] maps or more (and fewer than 256), [newSlot] with a
    new identifier returns the depth of the chain as the slot index, and
    [set] with a new identifier neither returns nor throws: it goes on to
    store past the end of [slots_]. *)
Theorem X8_set_past_the_array (h : heap) (this m : ptr) (slots : list Value)
    (l : list (Id * Index)) (id : Id) (v : Value) :
  object_at h this m slots l → id ∉ l.*1 →
  (N.to_nat MAX_SLOTS ≤ length l)%nat →
  (length l < N.to_nat Index_modulus)%nat →
  (∃ h', Object_newSlot this id h = Ret (N.of_nat (length l)) h') ∧
  Object_set this id v h = Undefined.
Proof.
  intros [Ho Hc Hcont _ _] Hid Hfull Hl.
  assert (next_index l = N.of_nat (length l)) as Hn
    by (by apply index_small).
  split.
  - destruct (Object_newSlot_chain _ _ _ _ _ id Ho Hc Hcont) as [mm Hnew].
    rewrite Hn in Hnew. by eexists.
  - eapply Object_set_overflow; [done..|]. rewrite Hn. bounds_lia.
Qed.

(** X8 on the object of [heap_full], which holds 32 properties. *)
Lemma X8_set_past_the_array_witness :
  ∃ m slots l,
    object_at heap_full the_object m slots l ∧ (32 ∉ l.*1) ∧
    (N.to_nat MAX_SLOTS ≤ length l)%nat ∧
    (length l < N.to_nat Index_modulus)%nat ∧
    (∃ h', Object_newSlot the_object 32 heap_full =
             Ret (N.of_nat (length l)) h') ∧
    Object_set the_object 32 7%Z heap_full = Undefined.
Proof.
  destruct (check_object heap_full the_object) as [[[m slots] l]|] eqn:E;
    [|vm_compute in E; discriminate].
  pose proof (check_object_sound _ _ _ _ _ E) as Hat.
  assert ((32 ∉ l.*1) ∧ (N.to_nat MAX_SLOTS ≤ length l)%nat ∧
          (length l < N.to_nat Index_modulus)%nat) as (H2 & H3 & H4).
  { vm_compute in E. injection E as <- <- <-. split_and!.
    - apply resolve_None. vm_compute. reflexivity.
    - vm_compute. lia.
    - vm_compute. lia. }
  exists m, slots, l. split_and!; [exact Hat|exact H2|exact H3|exact H4|..];
    by apply (X8_set_past_the_array heap_full the_object m slots l 32 7%Z
                Hat H2 H3 H4).
Defined.

(** X9.  [index_] is 8 bits wide and wraps.  On a well-formed object with
    exactly 256 maps on its chain, [set] with a new identifier returns slot
    0 and stores there, which is the slot of the first property of the
    object: [get] of that first property now reads the new value. *)
Theorem X9_slot_index_wraps (h : heap) (this m : ptr) (slots : list Value)
    (l : list (Id * Index)) (id id0 : Id) (v : Value) :
  object_at h this m slots l → id ∉ l.*1 →
  length l = N.to_nat Index_modulus →
  resolve l id0 = Some 0 →
  ∃ h', Object_set this id v h = Ret 0 h' ∧
        Object_get this id h' = Ret (v, true) h' ∧
        Object_get this id0 h' = Ret (v, true) h'.
Proof.
  intros Hat Hid Hl Hr0. pose proof Hat as [Ho Hc Hcont _ Hlen].
  assert (next_index l = 0) as Hn.
  { unfold next_index. rewrite Hl. reflexivity. }
  destruct (Object_set_new _ _ _ _ _ _ v Ho Hc Hcont Hid) as [mm Hset].
  { by rewrite Hn. }
  rewrite Hn in Hset. eexists. split; [exact Hset|].
  pose proof (object_at_extend _ _ _ _ _ mm id (N.to_nat 0) v Hat Hid)
    as [Ho' Hc' _ _ _].
  rewrite Hn in Ho', Hc'.
  assert (<[N.to_nat 0 := v]> slots !! N.to_nat 0 = Some v) as Hv.
  { apply list_lookup_insert_eq. bounds_lia. }
  split.
  - eapply (Object_get_found _ _ _ _ _ _ 0 v); [exact Ho'|exact Hc'| |done|done].
    simpl. by rewrite decide_True.
  - eapply (Object_get_found _ _ _ _ _ _ 0 v); [exact Ho'|exact Hc'| |done|done].
    simpl. rewrite decide_False; [done|]. intros ->.
    by apply resolve_Some_elem in Hr0.
Qed.

(** X9 on the fresh object after 256 calls of [newSlot], for its first
    identifier 0 and the new identifier 300. *)
Lemma X9_slot_index_wraps_witness :
  ∃ m slots l,
    object_at heap_256 the_object m slots l ∧ (300 ∉ l.*1) ∧
    length l = N.to_nat Index_modulus ∧
    resolve l 0 = Some 0 ∧
    ∃ h', Object_set the_object 300 7%Z heap_256 = Ret 0 h' ∧
          Object_get the_object 300 h' = Ret (7%Z, true) h' ∧
          Object_get the_object 0 h' = Ret (7%Z, true) h'.
Proof.
  destruct (check_object heap_256 the_object) as [[[m slots] l]|] eqn:E;
    [|vm_compute in E; discriminate].
  pose proof (check_object_sound _ _ _ _ _ E) as Hat.
  assert ((300 ∉ l.*1) ∧ length l = N.to_nat Index_modulus ∧
          resolve l 0 = Some 0) as (H2 & H3 & H4).
  { vm_compute in E. injection E as <- <- <-. split_and!.
    - apply resolve_None. vm_compute. reflexivity.
    - vm_compute. reflexivity.
    - vm_compute. reflexivity. }
  exists m, slots, l. split_and!; [exact Hat|exact H2|exact H3|exact H4|].
  exact (X9_slot_index_wraps heap_256 the_object m slots l 300 0 7%Z
           Hat H2 H3 H4).
Defined.

(** ** The map of maps *)

Lemma chain_meta_preserved h h' m mm :
  maps_preserved h h' → chain_meta h m mm → chain_meta h' m mm.
Proof.
  intros Hp. induction 1 as [m mm H|m mm p id ix H _ IH].
  - eapply chain_meta_empty. by apply Hp.
  - eapply chain_meta_object; [|exact IH]. by apply Hp.
Qed.

Lemma chain_meta_head h m mm c :
  chain_meta h m mm → h !! m = Some c → Cell_map c = mm.
Proof. intros [] Hc; by simplify_eq. Qed.

Lemma chain_meta_extend h this m slots mm c id ix slots' :
  h !! this = Some (Object m slots) → h !! m = Some c →
  chain_meta h m mm →
  chain_meta (<[this := Object (fresh (dom h)) slots']>
                (<[fresh (dom h) := ObjectMap (Cell_map c) m id ix]> h))
    (fresh (dom h)) mm.
Proof.
  intros Ho Hm Hc. pose proof (fresh_ne _ _ _ Ho) as Hne.
  rewrite (chain_meta_head _ _ _ _ Hc Hm).
  eapply chain_meta_object.
  - rewrite lookup_insert_ne by done. apply lookup_insert_eq.
  - eapply chain_meta_preserved; [|done].
    eapply maps_preserved_trans; [apply maps_preserved_alloc|].
    eapply maps_preserved_object. by rewrite lookup_insert_ne.
Qed.

(** X10.  Every [ObjectMap] takes its own [map_] from its parent
    ([parent->mapMap()]).  So when all the maps on the chain of an object
    have the same map of maps as the [EmptyObjectMap] at its end, they
    still do after any call of [get], [set] or [newSlot] on the object. *)
Theorem X10_one_map_of_maps (c : call) (h h' : heap) (m mm : ptr)
    (slots : list Value) :
  h !! call_this c = Some (Object m slots) → chain_meta h m mm →
  run_call c h = Some h' →
  ∃ m' slots',
    h' !! call_this c = Some (Object m' slots') ∧ chain_meta h' m' mm.
Proof.
  intros Ho Hc. destruct c as [this id|this id v|this id]; simpl in *.
  - destruct (Object_get this id h) as [r h1|e h1| |] eqn:E; simpl; try done.
    + intros [= <-]. apply Object_get_Ret in E as ->. eauto.
    + by apply Object_get_no_Throw in E.
  - destruct (Object_set this id v h) as [r h1|e h1| |] eqn:E; simpl; try done.
    + intros [= <-].
      destruct (Object_set_Ret _ _ _ _ _ _ E)
        as (m0 & s0 & Ho' & _ & [[_ ->]|[_ (c & Hm & _ & ->)]]);
        rewrite Ho in Ho'; injection Ho' as <- <-.
      * eexists _, _. split; [apply lookup_insert_eq|].
        eapply chain_meta_preserved; [|done]. by eapply maps_preserved_object.
      * eexists _, _. split; [apply lookup_insert_eq|].
        by eapply chain_meta_extend.
    + intros [= <-]. apply Object_set_Throw in E as ->. eauto.
  - destruct (Object_newSlot this id h) as [r h1|e h1| |] eqn:E; simpl;
      try done.
    + intros [= <-].
      apply Object_newSlot_Ret in E as (m0 & s0 & c & Ho' & Hm & _ & ->).
      rewrite Ho in Ho'. injection Ho' as <- <-.
      eexists _, _. split; [apply lookup_insert_eq|].
      by eapply chain_meta_extend.
    + intros [= <-]. apply Object_newSlot_Throw in E as (_ & -> & _). eauto.
Qed.

(** X10 on the fresh object and a first [set]. *)
Lemma X10_one_map_of_maps_witness :
  let c := call_set the_object 0 10%Z in
  let h' := default ∅ (run_call c heap_object) in
  heap_object !! call_this c =
    Some (Object 2%positive (replicate (N.to_nat MAX_SLOTS) 0%Z)) ∧
  chain_meta heap_object 2%positive 1%positive ∧
  run_call c heap_object = Some h' ∧
  ∃ m' slots',
    h' !! call_this c = Some (Object m' slots') ∧
    chain_meta h' m' 1%positive.
Proof.
  intros c h'.
  assert (heap_object !! call_this c =
    Some (Object 2%positive (replicate (N.to_nat MAX_SLOTS) 0%Z))) as H1
    by reflexivity.
  assert (chain_meta heap_object 2%positive 1%positive) as H2
    by (apply chain_meta_empty; reflexivity).
  assert (run_call c heap_object = Some h') as H3 by (vm_compute; reflexivity).
  split; [exact H1|]. split; [exact H2|]. split; [exact H3|].
  exact (X10_one_map_of_maps c heap_object h' 2%positive 1%positive _
           H1 H2 H3).
Defined.

(** ** The other constructors *)

(** X11.  An object constructed on a map that already heads a chain (the
    constructor from an [ObjectMap] pointer, or the one from an
    [EmptyObjectMap] pointer for the empty chain) has every property of
    that chain from the start, each reading 0, and no other property. *)
Theorem X11_object_on_a_map (h : heap) (m : ptr) (l : list (Id * Index)) :
  chain h m l → contiguous l → (length l ≤ N.to_nat MAX_SLOTS)%nat →
  ∃ this h1,
    new_Object m h = Ret this h1 ∧ h !! this = None ∧
    (∀ id, id ∈ l.*1 → Object_get this id h1 = Ret (0%Z, true) h1) ∧
    (∀ id, id ∉ l.*1 → Object_get this id h1 = Ret (0%Z, false) h1).
Proof.
  intros Hc Hcont Hl. eexists (fresh (dom h)), _.
  split; [reflexivity|]. split; [apply not_elem_of_dom, is_fresh|].
  assert (chain (<[fresh (dom h) :=
                     Object m (replicate (N.to_nat MAX_SLOTS) 0%Z)]> h) m l)
    as Hc1.
  { eapply chain_preserved; [apply maps_preserved_alloc|done]. }
  split; intros id Hid.
  - destruct (resolve l id) as [ix|] eqn:Hr.
    + assert (ix < MAX_SLOTS) as Hix.
      { eapply resolve_lt in Hr; [|done|]; bounds_lia. }
      eapply Object_get_found; [apply lookup_insert_eq|done..|].
      apply lookup_replicate_2. lia.
    + by apply resolve_None in Hr.
  - eapply Object_get_absent; [apply lookup_insert_eq|done..].
Qed.

(** X11 on the map the object of the scenario has reached. *)
Lemma X11_object_on_a_map_witness :
  chain heap_scenario 5%positive [(1, 1); (0, 0)] ∧
  contiguous [(1, 1); (0, 0)] ∧
  (length [(1, 1); (0, 0)] ≤ N.to_nat MAX_SLOTS)%nat ∧
  ∃ this h1,
    new_Object 5%positive heap_scenario = Ret this h1 ∧
    heap_scenario !! this = None ∧
    (∀ id, id ∈ [(1, 1); (0, 0)].*1 →
       Object_get this id h1 = Ret (0%Z, true) h1) ∧
    (∀ id, id ∉ [(1, 1); (0, 0)].*1 →
       Object_get this id h1 = Ret (0%Z, false) h1).
Proof.
  assert (chain heap_scenario 5%positive [(1, 1); (0, 0)]) as H1
    by (apply (chain_list_sound 3); vm_compute; reflexivity).
  assert (contiguous [(1, 1); (0, 0)]) as H2 by (vm_compute; tauto).
  assert (length [(1, 1); (0, 0)] ≤ N.to_nat MAX_SLOTS)%nat as H3
    by (vm_compute; lia).
  split; [exact H1|]. split; [exact H2|]. split; [exact H3|].
  exact (X11_object_on_a_map heap_scenario 5%positive _ H1 H2 H3).
Defined.

Lemma Object_get_transfer (a b : ptr) (id : Id) (h h' : heap) r :
  maps_preserved h h' → (size h ≤ size h')%nat →
  (∀ cell, h !! a = Some cell → h' !! b = Some cell) →
  Object_get a id h = Ret r h → Object_get b id h' = Ret r h'.
Proof.
  intros Hmp Hsz Hb. unfold Object_get.
  unfold mbind at 1, M_bind at 1, bind at 1.
  destruct (Object_index a id h) as [[ix f] h1|e h1| |] eqn:E; try done.
  pose proof E as (-> & m & slots & Ho & Hl)%Object_index_Ret.
  assert (Object_index b id h' = Ret (ix, f) h') as Hi'.
  { unfold Object_index. unfold mbind, M_bind, bind.
    rewrite (load_Object_eq _ _ _ _ (Hb _ Ho)).
    eapply index_loop_preserved; [done| |done]. unfold walk_fuel. lia. }
  intros Hget. unfold mbind at 1, M_bind at 1, bind at 1. rewrite Hi'.
  revert Hget. destruct f; [|by intros [= <-]]. unfold mbind, M_bind, bind.
  unfold read_slot. unfold mbind, M_bind, bind.
  rewrite (load_Object_eq _ _ _ _ Ho), (load_Object_eq _ _ _ _ (Hb _ Ho)).
  case_decide; [|done]. destruct (slots !! N.to_nat ix); [|done].
  by intros [= <-].
Qed.

(** X12.  A copy reads as its original: whatever [get] returns on an
    object for an identifier, it returns on a newly copy-constructed object
    for that identifier, and still returns on the original. *)
Theorem X12_copy_reads_the_same (h : heap) (a : ptr) (id : Id)
    (r : Value * bool) :
  Object_get a id h = Ret r h →
  ∃ b h1,
    new_Object_copy a h = Ret b h1 ∧ h !! b = None ∧
    Object_get b id h1 = Ret r h1 ∧
    Object_get a id h1 = Ret r h1.
Proof.
  intros Hget.
  assert (∃ m slots, h !! a = Some (Object m slots)) as (m & slots & Ho).
  { revert Hget. unfold Object_get.
    unfold mbind at 1, M_bind at 1, bind at 1.
    destruct (Object_index a id h) as [[ix f] h1|e h1| |] eqn:E; try done.
    apply Object_index_Ret in E as (_ & m & slots & Ho & _). eauto. }
  pose proof (fresh_ne _ _ _ Ho) as Hne.
  exists (fresh (dom h)), (<[fresh (dom h) := Object m slots]> h).
  assert (size h ≤ size (<[fresh (dom h) := Object m slots]> h))%nat as Hsz.
  { rewrite map_size_insert_None; [lia|]. apply not_elem_of_dom, is_fresh. }
  split_and!.
  - unfold new_Object_copy. unfold mbind, M_bind, bind.
    by rewrite (load_Object_eq _ _ _ _ Ho).
  - apply not_elem_of_dom, is_fresh.
  - eapply Object_get_transfer; [apply maps_preserved_alloc|done| |done].
    intros cell Hcell. rewrite Ho in Hcell. injection Hcell as <-.
    apply lookup_insert_eq.
  - eapply Object_get_transfer; [apply maps_preserved_alloc|done| |done].
    intros cell Hcell. by rewrite lookup_insert_ne.
Qed.

(** X12 on the object of the scenario and ["y"]. *)
Lemma X12_copy_reads_the_same_witness :
  Object_get the_object 1 heap_scenario = Ret (20%Z, true) heap_scenario ∧
  ∃ b h1,
    new_Object_copy the_object heap_scenario = Ret b h1 ∧
    heap_scenario !! b = None ∧
    Object_get b 1 h1 = Ret (20%Z, true) h1 ∧
    Object_get the_object 1 h1 = Ret (20%Z, true) h1.
Proof.
  assert (Object_get the_object 1 heap_scenario =
            Ret (20%Z, true) heap_scenario) as H1 by (vm_compute; reflexivity).
  split; [exact H1|].
  exact (X12_copy_reads_the_same heap_scenario the_object 1 _ H1).
Defined.

(** ** The setters of [ObjectMap] *)

(** X13.  Maps are shared, and the two setters of [ObjectMap] write
    through to every object on the map: after [id(id2)] on the map [m],
    [index(id2)] on any object whose map is [m] answers the index of [m];
    after [index(i2)] on [m], [index] of [m]'s identifier on any such
    object answers [i2]. *)
Theorem X13_setters_write_through (h : heap) (m mm parent : ptr)
    (id1 id2 : Id) (ix i2 : Index) :
  h !! m = Some (ObjectMap mm parent id1 ix) →
  (∃ h', ObjectMap_set_id m id2 h = Ret () h' ∧
     h' !! m = Some (ObjectMap mm parent id2 ix) ∧
     ∀ o slots, h !! o = Some (Object m slots) →
       Object_index o id2 h' = Ret (ix, true) h') ∧
  (∃ h', ObjectMap_set_index m i2 h = Ret () h' ∧
     h' !! m = Some (ObjectMap mm parent id1 i2) ∧
     ∀ o slots, h !! o = Some (Object m slots) →
       Object_index o id1 h' = Ret (i2, true) h').
Proof.
  intros Hm. split.
  - exists (<[m := ObjectMap mm parent id2 ix]> h). split_and!.
    + unfold ObjectMap_set_id. munfold. by rewrite Hm.
    + apply lookup_insert_eq.
    + intros o slots Ho. eapply Object_index_tip; [|apply lookup_insert_eq].
      rewrite lookup_insert_ne; [done|]. intros ->. congruence.
  - exists (<[m := ObjectMap mm parent id1 i2]> h). split_and!.
    + unfold ObjectMap_set_index. munfold. by rewrite Hm.
    + apply lookup_insert_eq.
    + intros o slots Ho. eapply Object_index_tip; [|apply lookup_insert_eq].
      rewrite lookup_insert_ne; [done|]. intros ->. congruence.
Qed.

(** X13 on the map that the object of the scenario and its copy share. *)
Lemma X13_setters_write_through_witness :
  heap_copy !! 5%positive =
    Some (ObjectMap 1%positive 4%positive 1 1) ∧
  (∃ h', ObjectMap_set_id 5%positive 8 heap_copy = Ret () h' ∧
     h' !! 5%positive = Some (ObjectMap 1%positive 4%positive 8 1) ∧
     ∀ o slots, heap_copy !! o = Some (Object 5%positive slots) →
       Object_index o 8 h' = Ret (1, true) h') ∧
  (∃ h', ObjectMap_set_index 5%positive 9 heap_copy = Ret () h' ∧
     h' !! 5%positive = Some (ObjectMap 1%positive 4%positive 1 9) ∧
     ∀ o slots, heap_copy !! o = Some (Object 5%positive slots) →
       Object_index o 1 h' = Ret (9, true) h').
Proof.
  assert (heap_copy !! 5%positive =
            Some (ObjectMap 1%positive 4%positive 1 1)) as H1
    by (vm_compute; reflexivity).
  split; [exact H1|].
  exact (X13_setters_write_through heap_copy 5%positive 1%positive 4%positive
           1 8 1 9 H1).
Defined.

(** ** More on the symbol table *)

Lemma SymbolTable_lookup_all_cons s names st :
  SymbolTable_lookup_all (s :: names) st =
    ((SymbolTable_lookup s st).1 ::
       (SymbolTable_lookup_all names (SymbolTable_lookup s st).2).1,
     (SymbolTable_lookup_all names (SymbolTable_lookup s st).2).2).
Proof.
  simpl. destruct (SymbolTable_lookup s st) as [id st1]. simpl.
  by destruct (SymbolTable_lookup_all names st1).
Qed.

Lemma SymbolTable_lookup_all_keeps names st s id :
  lookupTable_ st !! s = Some id →
  lookupTable_ (SymbolTable_lookup_all names st).2 !! s = Some id.
Proof.
  revert st. induction names as [|n names IH]; intros st H; [done|].
  rewrite SymbolTable_lookup_all_cons. simpl. apply IH.
  by apply SymbolTable_lookup_keeps.
Qed.

(** X14.  A name keeps its identifier for good: after [lookup] of a name,
    and then [lookup] of any other names in any number, [lookup] of the
    first name still returns the identifier it returned the first time, and
    adds nothing to the table.  This holds on every table, the counter
    wrapped or not. *)
Theorem X14_identifier_is_stable (st : SymbolTable) (s : string)
    (names : list string) :
  SymbolTable_lookup s
      (SymbolTable_lookup_all names (SymbolTable_lookup s st).2).2 =
    ((SymbolTable_lookup s st).1,
     (SymbolTable_lookup_all names (SymbolTable_lookup s st).2).2).
Proof.
  apply SymbolTable_lookup_known, SymbolTable_lookup_all_keeps,
    SymbolTable_lookup_recorded.
Qed.

Lemma SymbolTable_lookup_all_fresh names :
  ∀ st (k : nat),
    nextId_ st = N.of_nat k mod Id_modulus →
    (∀ s, s ∈ names → lookupTable_ st !! s = None) →
    NoDup names →
    N.of_nat (k + length names) ≤ Id_modulus →
    (SymbolTable_lookup_all names st).1 = N.of_nat <$> seq k (length names).
Proof.
  induction names as [|s names IH]; intros st k Hnext Hfresh Hnd Hk; [done|].
  rewrite SymbolTable_lookup_all_cons.
  apply NoDup_cons in Hnd as [Hs Hnd].
  assert (lookupTable_ st !! s = None) as Hsf by (apply Hfresh; by left).
  rewrite (SymbolTable_lookup_fresh _ _ Hsf). simpl in *. f_equal.
  - rewrite Hnext. apply N.mod_small. lia.
  - apply IH; simpl.
    + rewrite Hnext, N.Div0.add_mod_idemp_l. f_equal. lia.
    + intros s' Hs'. rewrite lookup_insert_ne; [|by intros ->].
      apply Hfresh. by right.
    + done.
    + lia.
Qed.

(** X15.  Identifiers are handed out in order of first appearance: on a
    default-constructed table, [lookup] of pairwise distinct names, no more
    than 2^32 of them, returns 0, 1, 2, ... in turn. *)
Theorem X15_numbered_in_order (names : list string) :
  NoDup names →
  N.of_nat (length names) ≤ Id_modulus →
  (SymbolTable_lookup_all names SymbolTable_init).1 =
    N.of_nat <$> seq 0 (length names).
Proof.
  intros Hnd Hlen. apply SymbolTable_lookup_all_fresh; try done.
Qed.

(** X15 on the names of the scenario. *)
Lemma X15_numbered_in_order_witness :
  NoDup ["x"; "y"; "z"] ∧
  N.of_nat (length ["x"; "y"; "z"]) ≤ Id_modulus ∧
  (SymbolTable_lookup_all ["x"; "y"; "z"] SymbolTable_init).1 =
    N.of_nat <$> seq 0 (length ["x"; "y"; "z"]).
Proof.
  assert (NoDup ["x"; "y"; "z"]) as H1
    by (apply (bool_decide_unpack _); vm_compute; exact I).
  assert (N.of_nat (length ["x"; "y"; "z"]) ≤ Id_modulus) as H2
    by (vm_compute; discriminate).
  split; [exact H1|]. split; [exact H2|].
  exact (X15_numbered_in_order ["x"; "y"; "z"] H1 H2).
Defined.

(** X16.  On every table a program can hold with fewer than 2^32 names,
    the counter [nextId_] is the number of names recorded, and every
    recorded identifier lies below it. *)
Theorem X16_counter_counts (st : SymbolTable) :
  interned st →
  N.of_nat (size (lookupTable_ st)) < Id_modulus →
  nextId_ st = N.of_nat (size (lookupTable_ st)) ∧
  ∀ s i, lookupTable_ st !! s = Some i → i < nextId_ st.
Proof.
  intros Hin Hsz. destruct (interned_ok _ Hin) as (Hnext & Hlt & _); [lia|].
  assert (nextId_ st = N.of_nat (size (lookupTable_ st))) as Hn.
  { rewrite Hnext. by apply N.mod_small. }
  split; [done|]. intros s i Hs. rewrite Hn. by eapply Hlt.
Qed.

(** X16 on the table that holds ["x"] and ["y"]. *)
Lemma X16_counter_counts_witness :
  let st := (SymbolTable_lookup_all ["x"; "y"] SymbolTable_init).2 in
  interned st ∧
  N.of_nat (size (lookupTable_ st)) < Id_modulus ∧
  nextId_ st = N.of_nat (size (lookupTable_ st)) ∧
  ∀ s i, lookupTable_ st !! s = Some i → i < nextId_ st.
Proof.
  intros st.
  assert (interned st) as H1.
  { change st with
      (SymbolTable_lookup "y" (SymbolTable_lookup "x" SymbolTable_init).2).2.
    do 2 apply interned_lookup. apply interned_init. }
  assert (N.of_nat (size (lookupTable_ st)) < Id_modulus) as H2
    by (vm_compute; reflexivity).
  split; [exact H1|]. split; [exact H2|].
  exact (X16_counter_counts st H1 H2).
Defined.
